(** * django-encrypted-fields: the field encryption envelope

    A shallow embedding of [encrypted_fields/fields.py]: key derivation
    ([EncryptedFieldMixin.keys]), the envelope codec ([encrypt_value],
    [decrypt_value]), the scalar field interface ([get_prep_value]) and the
    recursive walk of [EncryptedJSONField] ([_encrypt_values],
    [_decrypt_values]).

    The module is Python glue around three library services.  Text
    encoding and URL-safe base64 are modelled concretely (they decide which
    inputs are passed through); AES-GCM and PBKDF2-HMAC-SHA256 come from the
    [cryptography] package and enter through the interface [Crypto], with
    the part of their contract the module relies on in [CryptoLaws];
    [os.urandom] reads an entropy tape that is threaded as state. *)

From Stdlib.Strings Require Import String Ascii Byte.
From Stdlib Require Import DecimalString.
From Stdlib Require Import ZArith List Lia Bool.
Import ListNotations.

Open Scope Z_scope.

(** ** Python values the module manipulates *)

(** [bytes] objects. *)
Definition bytes := list byte.

(** [str] objects: sequences of Unicode code points. A Python [str] holds
    code points in 0..0x10FFFF, lone surrogates included. *)
Definition text := list Z.

Definition b2z (b : byte) : Z := Z.of_N (Byte.to_N b).

Definition z2b (z : Z) : byte :=
  match Byte.of_N (Z.to_N (z mod 256)) with
  | Some b => b
  | None => x00
  end.

(** An ASCII literal as a [str]. *)
Definition str_of (s : string) : text :=
  map (fun a => Z.of_N (N_of_ascii a)) (list_ascii_of_string s).

(** An ASCII literal as a [bytes]. *)
Definition bytes_of (s : string) : bytes :=
  map byte_of_ascii (list_ascii_of_string s).

(** The exceptions that occur. [BinasciiError] is [binascii.Error],
    [InvalidTag] is [cryptography.exceptions.InvalidTag]. *)
Inductive exn : Type :=
| ValueError (msg : string)
| IndexError (msg : string)
| BinasciiError (msg : string)
| UnicodeEncodeError
| UnicodeDecodeError
| InvalidTag.

(** [str(e)] for the exceptions raised with a fixed message; the codec
    errors are represented by the reason phrase of theirs. *)
Definition exn_message (e : exn) : string :=
  match e with
  | ValueError m | IndexError m | BinasciiError m => m
  | UnicodeEncodeError => "surrogates not allowed"
  | UnicodeDecodeError => "invalid start byte"
  | InvalidTag => EmptyString
  end.

(** The outcome of a call: a value, or a raised exception. *)
Inductive result (A : Type) : Type :=
| Ok (a : A)
| Raise (e : exn).
Arguments Ok {A} a.
Arguments Raise {A} e.

Definition rbind {A B} (r : result A) (k : A -> result B) : result B :=
  match r with
  | Ok a => k a
  | Raise e => Raise e
  end.

Declare Scope result_scope.
Delimit Scope result_scope with res.
Notation "x <- r ;; k" := (rbind r (fun x => k))
  (at level 61, r at next level, right associativity) : result_scope.

(** ** The random source

    [os.urandom(n)] returns the next [n] bytes of the kernel's entropy
    stream. The stream is the state threaded through every computation that
    may draw a nonce. *)
Definition entropy := nat -> byte.

Definition urandom (n : nat) (e : entropy) : bytes * entropy :=
  (map e (seq 0 n), fun i => e (n + i)%nat).

(** Computations that may draw randomness and may raise. The entropy
    consumed before an exception stays consumed. *)
Definition M (A : Type) : Type := entropy -> result A * entropy.

Definition ret {A} (a : A) : M A := fun e => (Ok a, e).

Definition bind {A B} (m : M A) (k : A -> M B) : M B :=
  fun e =>
    match m e with
    | (Ok a, e') => k a e'
    | (Raise x, e') => (Raise x, e')
    end.

Definition lift {A} (r : result A) : M A := fun e => (r, e).

Definition os_urandom (n : nat) : M bytes :=
  fun e => let (bs, e') := urandom n e in (Ok bs, e').

Declare Scope m_scope.
Delimit Scope m_scope with M.
Notation "x <- m ;; k" := (bind m (fun x => k))
  (at level 61, m at next level, right associativity) : m_scope.

(** ** UTF-8, as [str.encode("utf-8")] and [bytes.decode("utf-8")]

    Both run in strict mode: encoding rejects surrogate code points,
    decoding rejects everything that is not well-formed UTF-8 (overlong
    forms, surrogates, values above 0x10FFFF, truncated sequences). *)
Module Utf8.

Definition encode_char (c : Z) : option bytes :=
  if c <? 0 then None
  else if c <? 0x80 then Some [z2b c]
  else if c <? 0x800 then
    Some [z2b (0xC0 + c / 64); z2b (0x80 + c mod 64)]
  else if c <? 0x10000 then
    if (0xD800 <=? c) && (c <=? 0xDFFF) then None
    else Some [z2b (0xE0 + c / 4096);
               z2b (0x80 + (c / 64) mod 64);
               z2b (0x80 + c mod 64)]
  else if c <? 0x110000 then
    Some [z2b (0xF0 + c / 262144);
          z2b (0x80 + (c / 4096) mod 64);
          z2b (0x80 + (c / 64) mod 64);
          z2b (0x80 + c mod 64)]
  else None.

Fixpoint encode (s : text) : result bytes :=
  match s with
  | [] => Ok []
  | c :: s' =>
      match encode_char c with
      | None => Raise UnicodeEncodeError
      | Some bs =>
          match encode s' with
          | Ok rest => Ok (bs ++ rest)
          | Raise e => Raise e
          end
      end
  end.

(** A continuation byte, 10xxxxxx. *)
Definition is_cont (b : byte) : bool := (0x80 <=? b2z b) && (b2z b <? 0xC0).

Definition cont (b : byte) : Z := b2z b - 0x80.

Fixpoint decode (bs : bytes) : result text :=
  match bs with
  | [] => Ok []
  | b0 :: r0 =>
      let z0 := b2z b0 in
      if z0 <? 0x80 then
        match decode r0 with Ok s => Ok (z0 :: s) | Raise e => Raise e end
      else if z0 <? 0xC0 then Raise UnicodeDecodeError
      else
        match r0 with
        | [] => Raise UnicodeDecodeError
        | b1 :: r1 =>
            if negb (is_cont b1) then Raise UnicodeDecodeError
            else if z0 <? 0xE0 then
              let c := (z0 - 0xC0) * 64 + cont b1 in
              if c <? 0x80 then Raise UnicodeDecodeError
              else
                match decode r1 with
                | Ok s => Ok (c :: s)
                | Raise e => Raise e
                end
            else
              match r1 with
              | [] => Raise UnicodeDecodeError
              | b2 :: r2 =>
                  if negb (is_cont b2) then Raise UnicodeDecodeError
                  else if z0 <? 0xF0 then
                    let c := (z0 - 0xE0) * 4096 + cont b1 * 64 + cont b2 in
                    if (c <? 0x800) || ((0xD800 <=? c) && (c <=? 0xDFFF))
                    then Raise UnicodeDecodeError
                    else
                      match decode r2 with
                      | Ok s => Ok (c :: s)
                      | Raise e => Raise e
                      end
                  else
                    match r2 with
                    | [] => Raise UnicodeDecodeError
                    | b3 :: r3 =>
                        if negb (is_cont b3) then Raise UnicodeDecodeError
                        else if z0 <? 0xF8 then
                          let c := (z0 - 0xF0) * 262144 + cont b1 * 4096
                                   + cont b2 * 64 + cont b3 in
                          if (c <? 0x10000) || (0x10FFFF <? c)
                          then Raise UnicodeDecodeError
                          else
                            match decode r3 with
                            | Ok s => Ok (c :: s)
                            | Raise e => Raise e
                            end
                        else Raise UnicodeDecodeError
                    end
              end
        end
  end.

(** The texts [str.encode("utf-8")] accepts: no surrogate code point. *)
Definition scalar_value (c : Z) : Prop :=
  0 <= c <= 0x10FFFF /\ ~ (0xD800 <= c <= 0xDFFF).

Definition well_formed (s : text) : Prop := Forall scalar_value s.

End Utf8.

(** ** URL-safe base64, as [base64.urlsafe_b64encode] and
    [base64.urlsafe_b64decode]

    The encoder is [binascii.b2a_base64] followed by a translation of
    [+/] to [-_]. The decoder translates [-_] back to [+/] and runs
    [binascii.a2b_base64] in its default, lenient mode: bytes outside the
    alphabet are skipped, a completed pad sequence ends the parse, and only
    a dangling quantum is an error. *)
Module Base64.

Definition table_b2a_base64 : bytes :=
  bytes_of "ABCDEFGHIJKLMNOPQRSTUVWXYZabcdefghijklmnopqrstuvwxyz0123456789+/".

Definition BASE64_PAD : byte := "="%byte.

Definition b2a (i : Z) : byte := nth (Z.to_nat i) table_b2a_base64 BASE64_PAD.

Fixpoint index_of (c : byte) (l : bytes) (i : Z) : option Z :=
  match l with
  | [] => None
  | x :: l' => if Byte.eqb c x then Some i else index_of c l' (i + 1)
  end.

(** [table_a2b_base64]: the value of an alphabet byte, nothing for any
    other byte. *)
Definition a2b (c : byte) : option Z := index_of c table_b2a_base64 0.

(** The four 6-bit groups of a 24-bit quantum. *)
Definition sextet0 (b0 : byte) : Z := Z.shiftr (b2z b0) 2.
Definition sextet1 (b0 b1 : byte) : Z :=
  Z.lor (Z.shiftl (Z.land (b2z b0) 0x3) 4) (Z.shiftr (b2z b1) 4).
Definition sextet2 (b1 b2 : byte) : Z :=
  Z.lor (Z.shiftl (Z.land (b2z b1) 0xf) 2) (Z.shiftr (b2z b2) 6).
Definition sextet3 (b2 : byte) : Z := Z.land (b2z b2) 0x3f.

(** [binascii.b2a_base64(s, newline=False)]: a short final quantum is
    completed with zero bits and padded with [=]. *)
Fixpoint b2a_base64 (s : bytes) : bytes :=
  match s with
  | [] => []
  | [b0] =>
      [b2a (sextet0 b0); b2a (sextet1 b0 x00); BASE64_PAD; BASE64_PAD]
  | [b0; b1] =>
      [b2a (sextet0 b0); b2a (sextet1 b0 b1); b2a (sextet2 b1 x00);
       BASE64_PAD]
  | b0 :: b1 :: b2 :: rest =>
      b2a (sextet0 b0) :: b2a (sextet1 b0 b1) :: b2a (sextet2 b1 b2)
        :: b2a (sextet3 b2) :: b2a_base64 rest
  end.

(** [bytes.translate] with [_urlsafe_encode_translation], which maps [+/]
    to [-_], and with [_urlsafe_decode_translation], which maps [-_] to
    [+/]. *)
Definition urlsafe_encode_byte (c : byte) : byte :=
  if Byte.eqb c "+"%byte then "-"%byte
  else if Byte.eqb c "/"%byte then "_"%byte else c.

Definition urlsafe_decode_byte (c : byte) : byte :=
  if Byte.eqb c "-"%byte then "+"%byte
  else if Byte.eqb c "_"%byte then "/"%byte else c.

Definition urlsafe_b64encode (s : bytes) : bytes :=
  map urlsafe_encode_byte (b2a_base64 s).

(** The decoding loop of [binascii.a2b_base64] with [strict_mode] off.
    [quad_pos] is the position inside the current quantum, [leftchar] the
    bits carried over, [pads] the number of [=] seen since the last
    alphabet byte, [out] the bytes written so far. The first error
    message also gives the number of data characters, left out here. *)
Fixpoint a2b_loop (input : bytes) (quad_pos : nat) (leftchar pads : Z)
    (out : bytes) : result bytes :=
  match input with
  | [] =>
      match quad_pos with
      | O => Ok out
      | 1%nat =>
          Raise (BinasciiError
            "Invalid base64-encoded string: number of data characters cannot be 1 more than a multiple of 4")
      | _ => Raise (BinasciiError "Incorrect padding")
      end
  | this_ch :: rest =>
      if Byte.eqb this_ch BASE64_PAD then
        if (2 <=? quad_pos)%nat then
          if 4 <=? Z.of_nat quad_pos + (pads + 1) then Ok out
          else a2b_loop rest quad_pos leftchar (pads + 1) out
        else a2b_loop rest quad_pos leftchar pads out
      else
        match a2b this_ch with
        | None => a2b_loop rest quad_pos leftchar pads out
        | Some v =>
            match quad_pos with
            | O => a2b_loop rest 1 v 0 out
            | 1%nat =>
                a2b_loop rest 2 (Z.land v 0x0f) 0
                  (out ++ [z2b (Z.lor (Z.shiftl leftchar 2) (Z.shiftr v 4))])
            | 2%nat =>
                a2b_loop rest 3 (Z.land v 0x03) 0
                  (out ++ [z2b (Z.lor (Z.shiftl leftchar 4) (Z.shiftr v 2))])
            | _ =>
                a2b_loop rest 0 0 0
                  (out ++ [z2b (Z.lor (Z.shiftl leftchar 6) v)])
            end
        end
  end.

Definition a2b_base64 (s : bytes) : result bytes := a2b_loop s 0 0 0 [].

Definition urlsafe_b64decode (s : bytes) : result bytes :=
  a2b_base64 (map urlsafe_decode_byte s).

End Base64.

(** ** The [cryptography] package

    [gcm_seal key nonce data] and [gcm_open key nonce data] are AES-GCM
    with no associated data and a 128-bit tag appended to the ciphertext;
    [gcm_open] yields nothing when the tag does not verify.
    [pbkdf2_hmac_sha256 password salt iterations length] is PBKDF2 over
    HMAC-SHA256. *)
Class Crypto : Type := {
  gcm_seal : bytes -> bytes -> bytes -> bytes;
  gcm_open : bytes -> bytes -> bytes -> option bytes;
  pbkdf2_hmac_sha256 : bytes -> bytes -> Z -> nat -> bytes
}.

(** Key sizes [AESGCM] accepts: 128, 192 or 256 bits. *)
Definition aes_key_size (key : bytes) : bool :=
  let n := length key in
  (n =? 16)%nat || (n =? 24)%nat || (n =? 32)%nat.

(** Nonce sizes [AESGCM] accepts: 8 to 128 bytes. *)
Definition gcm_nonce_size (nonce : bytes) : bool :=
  let n := length nonce in (8 <=? n)%nat && (n <=? 128)%nat.

(** What the module relies on: the derived key has the requested length, a
    sealed message opens under the key and nonce that sealed it, and
    nothing shorter than a tag opens. *)
Class CryptoLaws (C : Crypto) : Prop := {
  pbkdf2_length : forall password salt iterations n,
    length (pbkdf2_hmac_sha256 password salt iterations n) = n;
  gcm_open_seal : forall key nonce data,
    aes_key_size key = true -> gcm_nonce_size nonce = true ->
    gcm_open key nonce (gcm_seal key nonce data) = Some data;
  gcm_open_short : forall key nonce data,
    (length data < 16)%nat -> gcm_open key nonce data = None
}.

(** [AESGCM(key)]: the constructor checks the key size. *)
Definition AESGCM (key : bytes) : result bytes :=
  if aes_key_size key then Ok key
  else Raise (ValueError "AESGCM key must be 128, 192, or 256 bits.").

(** [aesgcm.encrypt(nonce, data, None)]. *)
Definition AESGCM_encrypt `{Crypto} (aesgcm nonce data : bytes) : result bytes :=
  if gcm_nonce_size nonce then Ok (gcm_seal aesgcm nonce data)
  else Raise (ValueError "Nonce must be between 8 and 128 bytes").

(** [aesgcm.decrypt(nonce, data, None)]. *)
Definition AESGCM_decrypt `{Crypto} (aesgcm nonce data : bytes) : result bytes :=
  if gcm_nonce_size nonce then
    match gcm_open aesgcm nonce data with
    | Some plaintext => Ok plaintext
    | None => Raise InvalidTag
    end
  else Raise (ValueError "Nonce must be between 8 and 128 bytes").

(** ** Values of the fields

    The values the walks and the field interface see: [None], booleans,
    integers, strings, lists, and dicts with string keys. A dict is its
    item list in insertion order; its keys are pairwise distinct. Any
    other object (a float, a [Decimal], a [datetime]) is represented by
    what the module observes of it: the text [str] gives for it and its
    truth value. *)
#[local] Unset Elimination Schemes.
Inductive pyvalue : Type :=
| PNone
| PBool (b : bool)
| PInt (n : Z)
| PStr (s : text)
| PObj (str_form : text) (truth : bool)
| PList (l : list pyvalue)
| PDict (items : list (text * pyvalue)).
#[local] Set Elimination Schemes.

(** [repr] of a list or dict, which [str] returns for containers. Its
    quoting rules are not modelled; the walks never reach it. *)
Class Builtins : Type := {
  container_repr : pyvalue -> text
}.

(** [str(value)]. *)
Definition py_str `{Builtins} (value : pyvalue) : text :=
  match value with
  | PNone => str_of "None"
  | PBool true => str_of "True"
  | PBool false => str_of "False"
  | PInt n => str_of (NilZero.string_of_int (Z.to_int n))
  | PStr s => s
  | PObj str_form _ => str_form
  | PList _ | PDict _ => container_repr value
  end.

(** Truth value, as tested by [if value:]. *)
Definition py_bool (value : pyvalue) : bool :=
  match value with
  | PNone => false
  | PBool b => b
  | PInt n => negb (n =? 0)
  | PStr s => negb (Nat.eqb (length s) 0)
  | PObj _ truth => truth
  | PList l => negb (Nat.eqb (length l) 0)
  | PDict items => negb (Nat.eqb (length items) 0)
  end.

(** [l[i]]. *)
Definition getitem {A} (l : list A) (i : nat) : result A :=
  match nth_error l i with
  | Some x => Ok x
  | None => Raise (IndexError "list index out of range")
  end.

(** A [for] loop whose body updates a local and may raise. *)
Fixpoint for_each {A S} (l : list A) (body : A -> S -> result S) (s : S)
    : result S :=
  match l with
  | [] => Ok s
  | x :: l' =>
      match body x s with
      | Ok s' => for_each l' body s'
      | Raise e => Raise e
      end
  end.

(** ** Django settings read by the module *)

(** [settings.SALT_KEY] is a string or a list of strings. *)
Inductive salt_setting : Type :=
| SaltStr (salt : text)
| SaltList (salts : list text).

Record settings : Type := {
  SECRET_KEY : text;
  SECRET_KEY_FALLBACKS : option (list text);
  SALT_KEY : salt_setting
}.

(** The class the mixin is combined with: what [super().get_prep_value]
    does. *)
Class FieldBase : Type := {
  super_get_prep_value : pyvalue -> result pyvalue
}.

(** ** [EncryptedFieldMixin] *)
Section EncryptedFieldMixin.

Context {crypto : Crypto} {builtins : Builtins}.

(** The two locals of [keys]: [SALT_KEY] wrapped into a list unless it
    is one, and the primary secret followed by the fallbacks, if set. *)
Definition salt_keys (cfg : settings) : list text :=
  match SALT_KEY cfg with
  | SaltList salts => salts
  | SaltStr salt => [salt]
  end.

Definition secret_keys (cfg : settings) : list text :=
  [SECRET_KEY cfg] ++
  match SECRET_KEY_FALLBACKS cfg with
  | Some fallbacks => fallbacks
  | None => []
  end.

(** [keys]: one key per secret and salt, secrets in the outer loop. The
    property is cached; it is a function of the settings alone. *)
Definition keys (cfg : settings) : result (list bytes) :=
  for_each (secret_keys cfg) (fun secret_key keys =>
    for_each (salt_keys cfg) (fun salt_key keys =>
      (salt <- Utf8.encode salt_key ;;
       password <- Utf8.encode secret_key ;;
       Ok (keys ++ [pbkdf2_hmac_sha256 password salt 100000 32]))%res)
      keys)
    [].

(** [encrypt_value]: seal under [self.keys[0]] with a fresh 12-byte
    nonce; the token is the base64 text of nonce and ciphertext. *)
Definition encrypt_value (cfg : settings) (plaintext : text) : M text :=
  (ks <- lift (keys cfg) ;;
   key <- lift (getitem ks 0) ;;
   aesgcm <- lift (AESGCM key) ;;
   nonce <- os_urandom 12 ;;
   data <- lift (Utf8.encode plaintext) ;;
   ciphertext <- lift (AESGCM_encrypt aesgcm nonce data) ;;
   let encrypted := nonce ++ ciphertext in
   lift (Utf8.decode (Base64.urlsafe_b64encode encrypted)))%M.

(** The loop over [self.keys] of [decrypt_value]: the first key that
    opens the ciphertext to valid UTF-8 decides; a key that fails is
    skipped; running out of keys raises. *)
Fixpoint decrypt_loop (ks : list bytes) (nonce ciphertext : bytes)
    : result text :=
  match ks with
  | [] => Raise (ValueError "Decryption failed with all provided keys.")
  | key :: ks' =>
      (aesgcm <- AESGCM key ;;
       match (plaintext <- AESGCM_decrypt aesgcm nonce ciphertext ;;
              Utf8.decode plaintext)%res with
       | Ok s => Ok s
       | Raise _ => decrypt_loop ks' nonce ciphertext
       end)%res
  end.

(** [decrypt_value]: an exception while encoding and base64-decoding
    the argument returns the argument; otherwise the first 12 bytes are
    the nonce, the rest the ciphertext, and the loop decides. *)
Definition decrypt_value (cfg : settings) (encrypted_value : text)
    : result text :=
  match (b <- Utf8.encode encrypted_value ;;
         Base64.urlsafe_b64decode b)%res with
  | Raise _ => Ok encrypted_value
  | Ok encrypted =>
      let nonce := firstn 12 encrypted in
      let ciphertext := skipn 12 encrypted in
      (ks <- keys cfg ;;
       decrypt_loop ks nonce ciphertext)%res
  end.

(** [get_prep_value]: the parent class prepares the value; a truthy
    value is turned into text unless it is a string, and encrypted;
    anything else is stored as [None]. *)
Definition get_prep_value `{FieldBase} (cfg : settings) (value : pyvalue)
    : M pyvalue :=
  (value <- lift (super_get_prep_value value) ;;
   if py_bool value then
     let value := match value with
                  | PStr s => s
                  | _ => py_str value
                  end in
     token <- encrypt_value cfg value ;;
     ret (PStr token)
   else ret PNone)%M.

(** ** [EncryptedJSONField] *)

(** [_encrypt_values]: dicts and lists are rebuilt item by item, in
    order; every other value goes through [str] and [encrypt_value]. *)
Fixpoint _encrypt_values (cfg : settings) (value : pyvalue) : M pyvalue :=
  match value with
  | PDict items =>
      (items' <-
         (fix walk (items : list (text * pyvalue))
             : M (list (text * pyvalue)) :=
            match items with
            | [] => ret []
            | (key, data) :: rest =>
                data' <- _encrypt_values cfg data ;;
                rest' <- walk rest ;;
                ret ((key, data') :: rest')
            end) items ;;
       ret (PDict items'))%M
  | PList l =>
      (l' <-
         (fix walk (l : list pyvalue) : M (list pyvalue) :=
            match l with
            | [] => ret []
            | data :: rest =>
                data' <- _encrypt_values cfg data ;;
                rest' <- walk rest ;;
                ret (data' :: rest')
            end) l ;;
       ret (PList l'))%M
  | _ =>
      let plain := py_str value in
      (token <- encrypt_value cfg plain ;;
       ret (PStr token))%M
  end.

(** [_decrypt_values]: [None] is handed back; dicts and lists are
    rebuilt; every other value goes through [str] and [decrypt_value], and
    is handed back as it is when that raises. *)
Fixpoint _decrypt_values (cfg : settings) (value : pyvalue) : pyvalue :=
  match value with
  | PNone => value
  | PDict items =>
      PDict (map (fun item => (fst item, _decrypt_values cfg (snd item))) items)
  | PList l => PList (map (_decrypt_values cfg) l)
  | _ =>
      match decrypt_value cfg (py_str value) with
      | Ok s => PStr s
      | Raise _ => value
      end
  end.

End EncryptedFieldMixin.

(** ** Instances to run the model on

    A small cipher and key derivation with the shape of the real ones
    (a 16-byte tag after the body, a key of the requested length), a
    stand-in for the [repr] of containers, the plain
    [Field.get_prep_value], and two entropy tapes. They make the
    definitions above computable on concrete inputs. *)
Module Ref.

Definition bsum (bs : bytes) : Z := fold_right (fun b acc => b2z b + acc) 0 bs.

Fixpoint bytes_eqb (a b : bytes) : bool :=
  match a, b with
  | [], [] => true
  | x :: a', y :: b' => Byte.eqb x y && bytes_eqb a' b'
  | _, _ => false
  end.

Definition mask (key : bytes) (b : byte) : byte := z2b (b2z b + bsum key).

Definition unmask (key : bytes) (c : byte) : byte := z2b (b2z c - bsum key).

Definition tag (key nonce data : bytes) : bytes :=
  map (fun i => z2b (b2z (nth i key x00) + b2z (nth (i mod 12) nonce x00)
                     + bsum data + Z.of_nat i))
      (seq 0 16).

Definition seal (key nonce data : bytes) : bytes :=
  map (mask key) data ++ tag key nonce data.

Definition open (key nonce data : bytes) : option bytes :=
  if (length data <? 16)%nat then None
  else
    let n := (length data - 16)%nat in
    let plaintext := map (unmask key) (firstn n data) in
    if bytes_eqb (skipn n data) (tag key nonce plaintext)
    then Some plaintext else None.

Definition kdf (password salt : bytes) (iterations : Z) (n : nat) : bytes :=
  map (fun i => z2b (bsum password * (Z.of_nat i + 1) + bsum salt * 7
                     + iterations))
      (seq 0 n).

#[export] Instance crypto : Crypto := {
  gcm_seal := seal;
  gcm_open := open;
  pbkdf2_hmac_sha256 := kdf
}.

#[export] Instance builtins : Builtins := {
  container_repr := fun _ => str_of "[...]"
}.

(** [models.Field.get_prep_value] hands the value on. *)
#[export] Instance plain_field : FieldBase := {
  super_get_prep_value := fun value => Ok value
}.

Definition tape1 : entropy := fun i => z2b (Z.of_nat i * 37 + 11).

Definition tape2 : entropy := fun i => z2b (Z.of_nat i * 5 + 200).

(** One secret, one salt. *)
Definition cfg1 : settings := {|
  SECRET_KEY := str_of "s1";
  SECRET_KEY_FALLBACKS := None;
  SALT_KEY := SaltStr (str_of "a")
|}.

(** The secret of [cfg1] rotated out to a fallback. *)
Definition cfg2 : settings := {|
  SECRET_KEY := str_of "s2";
  SECRET_KEY_FALLBACKS := Some [str_of "s1"];
  SALT_KEY := SaltStr (str_of "a")
|}.

(** Two secrets, three salts. *)
Definition cfg23 : settings := {|
  SECRET_KEY := str_of "s1";
  SECRET_KEY_FALLBACKS := Some [str_of "s0"];
  SALT_KEY := SaltList [str_of "a"; str_of "b"; str_of "c"]
|}.

(** An empty salt list. *)
Definition cfg_no_salt : settings := {|
  SECRET_KEY := str_of "s1";
  SECRET_KEY_FALLBACKS := None;
  SALT_KEY := SaltList []
|}.

(** A document with a null leaf, a negative number, a string, a boolean
    and the float 2.5. *)
Definition doc1 : pyvalue :=
  PDict [(str_of "a", PNone);
         (str_of "b", PList [PInt (-12); PStr (str_of "x"); PBool true;
                             PObj (str_of "2.5") true])].

(** The base64 text of twelve zero bytes: a nonce and no ciphertext. *)
Definition bare_nonce : text := str_of "AAAAAAAAAAAAAAAA".

(** The token of "hello" under the primary key of [cfg2]. *)
Definition token2 : text :=
  Eval vm_compute in
    match fst (encrypt_value cfg2 (str_of "hello") tape1) with
    | Ok token => token
    | Raise _ => []
    end.

End Ref.

(** ** Vocabulary of the statements *)

(** Every byte, and every 6-bit value: the finite domains over which the
    bit identities of base64 are checked by evaluation. *)
Definition all_bytes : bytes := map (fun n => z2b (Z.of_nat n)) (seq 0 256).

Definition all_sextets : list Z := map Z.of_nat (seq 0 64).

Definition in_sextet (i : Z) : bool := (0 <=? i) && (i <? 64).

Definition is_some_Z (o : option Z) (i : Z) : bool :=
  match o with
  | Some j => j =? i
  | None => false
  end.

(** The byte that reaches the decoding loop for the sextet [i]: encoded,
    made URL-safe, and translated back. *)
Definition wire (i : Z) : byte :=
  Base64.urlsafe_decode_byte (Base64.urlsafe_encode_byte (Base64.b2a i)).

Definition is_ascii (b : byte) : bool := b2z b <? 0x80.

(** The token text of an envelope: its URL-safe base64, read as [str]. *)
Definition token_text (encrypted : bytes) : text :=
  map b2z (Base64.urlsafe_b64encode encrypted).

(** The UTF-8 bytes of a text that has them. *)
Definition utf8_bytes (s : text) : bytes :=
  match Utf8.encode s with
  | Ok bs => bs
  | Raise _ => []
  end.

(** The envelope bytes [decrypt_value] reads out of its argument, when
    the argument encodes and decodes. *)
Definition envelope_of (encrypted_value : text) : result bytes :=
  (b <- Utf8.encode encrypted_value ;; Base64.urlsafe_b64decode b)%res.

(** The nonce the next call of [encrypt_value] draws. *)
Definition next_nonce (e : entropy) : bytes := fst (urandom 12 e).

Section Vocabulary.

Context {crypto : Crypto} {builtins : Builtins}.

(** The key derived from one secret and one salt. *)
Definition key_of (secret_key salt_key : text) : bytes :=
  pbkdf2_hmac_sha256 (utf8_bytes secret_key) (utf8_bytes salt_key) 100000 32.

(** The key list laid out with secrets outside and salts inside. *)
Definition key_table (cfg : settings) : list bytes :=
  flat_map (fun secret_key => map (key_of secret_key) (salt_keys cfg))
           (secret_keys cfg).

(** Settings under which key derivation succeeds with at least one key:
    secrets and salts are well-formed text and there is a salt. *)
Definition well_configured (cfg : settings) : Prop :=
  Forall Utf8.well_formed (secret_keys cfg) /\
  Forall Utf8.well_formed (salt_keys cfg) /\
  salt_keys cfg <> [].

(** The document with every leaf replaced by its text. *)
Fixpoint stringify (value : pyvalue) : pyvalue :=
  match value with
  | PList l => PList (map stringify l)
  | PDict items =>
      PDict (map (fun item => (fst item, stringify (snd item))) items)
  | _ => PStr (py_str value)
  end.

End Vocabulary.

(** A value that is neither a list nor a dict. *)
Definition is_leaf (value : pyvalue) : bool :=
  match value with
  | PList _ | PDict _ => false
  | _ => true
  end.

(** The shape of a document: nesting, keys in order, element counts. *)
#[local] Unset Elimination Schemes.
Inductive shape : Type :=
| SLeaf
| SList (l : list shape)
| SDict (items : list (text * shape)).
#[local] Set Elimination Schemes.

Fixpoint shape_of (value : pyvalue) : shape :=
  match value with
  | PList l => SList (map shape_of l)
  | PDict items => SDict (map (fun item => (fst item, shape_of (snd item))) items)
  | _ => SLeaf
  end.

(** Every string leaf of the document, and the text of every object
    leaf, is well-formed text. *)
Fixpoint encodable (value : pyvalue) : Prop :=
  match value with
  | PStr s => Utf8.well_formed s
  | PObj str_form _ => Utf8.well_formed str_form
  | PList l =>
      (fix all (l : list pyvalue) : Prop :=
         match l with
         | [] => True
         | data :: rest => encodable data /\ all rest
         end) l
  | PDict items =>
      (fix all (items : list (text * pyvalue)) : Prop :=
         match items with
         | [] => True
         | (_, data) :: rest => encodable data /\ all rest
         end) items
  | _ => True
  end.

(** Induction over documents, with the hypothesis for every element of a
    list and every value of a dict. *)
Fixpoint pyvalue_ind (P : pyvalue -> Prop)
    (HNone : P PNone) (HBool : forall b, P (PBool b))
    (HInt : forall n, P (PInt n)) (HStr : forall s, P (PStr s))
    (HObj : forall str_form truth, P (PObj str_form truth))
    (HList : forall l, Forall P l -> P (PList l))
    (HDict : forall items, Forall (fun item => P (snd item)) items ->
                           P (PDict items))
    (value : pyvalue) : P value :=
  match value with
  | PNone => HNone
  | PBool b => HBool b
  | PInt n => HInt n
  | PStr s => HStr s
  | PObj str_form truth => HObj str_form truth
  | PList l =>
      HList l
        ((fix all (l : list pyvalue) : Forall P l :=
            match l with
            | [] => Forall_nil P
            | data :: rest =>
                Forall_cons data
                  (pyvalue_ind P HNone HBool HInt HStr HObj HList HDict data)
                  (all rest)
            end) l)
  | PDict items =>
      HDict items
        ((fix all (items : list (text * pyvalue))
            : Forall (fun item => P (snd item)) items :=
            match items with
            | [] => Forall_nil _
            | item :: rest =>
                Forall_cons item
                  (pyvalue_ind P HNone HBool HInt HStr HObj HList HDict (snd item))
                  (all rest)
            end) items)
  end.

Ltac zrange := Z.div_mod_to_equations; lia.

Ltac ltb_cases :=
  repeat match goal with
  | |- context [?a <? ?b] => destruct (Z.ltb_spec a b); try zrange
  | |- context [?a <=? ?b] => destruct (Z.leb_spec a b); try zrange
  end.

(** The comprehensions of [_encrypt_values], named: the walk over the
    elements of a list and over the items of a dict. *)
Section Comprehensions.

Context {crypto : Crypto} {builtins : Builtins}.
Variable cfg : settings.

Fixpoint encrypt_list (l : list pyvalue) : M (list pyvalue) :=
  match l with
  | [] => ret []
  | data :: rest =>
      (data' <- _encrypt_values cfg data ;;
       rest' <- encrypt_list rest ;;
       ret (data' :: rest'))%M
  end.

Fixpoint encrypt_items (items : list (text * pyvalue))
    : M (list (text * pyvalue)) :=
  match items with
  | [] => ret []
  | (key, data) :: rest =>
      (data' <- _encrypt_values cfg data ;;
       rest' <- encrypt_items rest ;;
       ret ((key, data') :: rest'))%M
  end.

End Comprehensions.

(** ** The read path of [EncryptedFieldMixin]

    [to_python], [from_db_value], [get_db_prep_value] and [clean]. The
    field instance carries one piece of state, the attribute
    [_already_decrypted]: [clean] sets it, [to_python] tests with
    [hasattr] whether it is there. It is threaded as a boolean. *)

(** The parent class on the read side: [super().to_python], and
    [super().clean], which calls the field's own [to_python] through
    [self] and is therefore given it. *)
Class ParentField : Type := {
  super_to_python : pyvalue -> result pyvalue;
  super_clean : (pyvalue -> result pyvalue) -> pyvalue -> result pyvalue
}.

Section ReadPath.

Context {crypto : Crypto} {builtins : Builtins} {parent : ParentField}.

(** [to_python]: [None], a value that is not a string, and any value
    while the attribute is set come back as they are; a string is
    decrypted, kept as it is when [decrypt_value] raises, and handed to
    the parent. *)
Definition to_python (_already_decrypted : bool) (cfg : settings)
    (value : pyvalue) : result pyvalue :=
  match value with
  | PStr s =>
      if _already_decrypted then Ok value
      else
        let decrypted_value :=
          match decrypt_value cfg s with
          | Ok decrypted => decrypted
          | Raise _ => s
          end in
        super_to_python (PStr decrypted_value)
  | _ => Ok value
  end.

(** [from_db_value] is [self.to_python]; the method is passed in, since
    [EncryptedJSONField] overrides it. *)
Definition from_db_value (self_to_python : pyvalue -> result pyvalue)
    (value : pyvalue) : result pyvalue :=
  self_to_python value.

(** [get_db_prep_value]: a value that is not yet prepared goes through
    [self.get_prep_value]. *)
Definition get_db_prep_value (self_get_prep_value : pyvalue -> M pyvalue)
    (value : pyvalue) (prepared : bool) : M pyvalue :=
  if negb prepared then self_get_prep_value value else ret value.

(** [clean]: set the attribute, run the parent's [clean], delete the
    attribute, return. The second component is the attribute
    afterwards; when the parent raises, the deletion is not reached. *)
Definition clean (cfg : settings) (value : pyvalue) : result pyvalue * bool :=
  let _already_decrypted := true in
  match super_clean (to_python _already_decrypted cfg) value with
  | Ok ret => (Ok ret, false)
  | Raise x => (Raise x, _already_decrypted)
  end.

End ReadPath.

(** ** [EncryptedIntegerField.validators] *)
Module EncryptedIntegerField.

(** [limit_value] of a validator: a value, or a callable that yields one. *)
Inductive limit : Type :=
| LimitValue (z : Z)
| LimitCallable (f : unit -> Z).

Inductive validator : Type :=
| MinValueValidator (limit_value : limit)
| MaxValueValidator (limit_value : limit)
| OtherValidator (name : string).

(** [validator.limit_value() if callable(validator.limit_value) else
    validator.limit_value]. *)
Definition limit_of (limit_value : limit) : Z :=
  match limit_value with
  | LimitValue z => z
  | LimitCallable f => f tt
  end.

(** [validators]. The entry of [integer_field_ranges] for
    ["IntegerField"] is a parameter: a pair of bounds, each possibly
    [None]. The second test runs over the list as the first step left
    it. *)
Definition validators (default_validators _validators : list validator)
    (integer_field_range : option Z * option Z) : list validator :=
  let validators_ := default_validators ++ _validators in
  let (min_value, max_value) := integer_field_range in
  let validators_ :=
    match min_value with
    | Some min_value =>
        if negb (existsb (fun validator =>
                    match validator with
                    | MinValueValidator limit_value =>
                        min_value <=? limit_of limit_value
                    | _ => false
                    end) validators_)
        then validators_ ++ [MinValueValidator (LimitValue min_value)]
        else validators_
    | None => validators_
    end in
  let validators_ :=
    match max_value with
    | Some max_value =>
        if negb (existsb (fun validator =>
                    match validator with
                    | MaxValueValidator limit_value =>
                        limit_of limit_value <=? max_value
                    | _ => false
                    end) validators_)
        then validators_ ++ [MaxValueValidator (LimitValue max_value)]
        else validators_
    | None => validators_
    end in
  validators_.

End EncryptedIntegerField.

(** ** The field interface of [EncryptedJSONField] *)

(** [json.dumps] with the field's encoder and [json.loads]. *)
Class Json : Type := {
  json_dumps : pyvalue -> result text;
  json_loads : text -> result pyvalue
}.

Module EncryptedJSONField.
Section EncryptedJSONField.

Context {crypto : Crypto} {builtins : Builtins} {parent : ParentField}
        {json : Json}.

(** [get_prep_value]: encrypt every leaf, then dump to JSON text. *)
Definition get_prep_value (cfg : settings) (value : pyvalue) : M pyvalue :=
  (encrypted <- _encrypt_values cfg value ;;
   dumped <- lift (json_dumps encrypted) ;;
   ret (PStr dumped))%M.

(** [to_python]: a string is loaded as JSON and walked; when either
    step raises the string itself goes on to the parent. *)
Definition to_python (_already_decrypted : bool) (cfg : settings)
    (value : pyvalue) : result pyvalue :=
  match value with
  | PStr s =>
      if _already_decrypted then Ok value
      else
        let value :=
          match json_loads s with
          | Ok loaded => _decrypt_values cfg loaded
          | Raise _ => value
          end in
        super_to_python value
  | _ => Ok value
  end.

End EncryptedJSONField.
End EncryptedJSONField.

(** ** Vocabulary for the properties of the remaining code *)

(** The characters of a token: the URL-safe alphabet and the pad. *)
Definition urlsafe_alphabet : text :=
  str_of "ABCDEFGHIJKLMNOPQRSTUVWXYZabcdefghijklmnopqrstuvwxyz0123456789-_=".

Definition urlsafe_char (c : Z) : bool := existsb (Z.eqb c) urlsafe_alphabet.

(** A byte the decoding loop skips: neither the pad nor, after the
    URL-safe translation, a byte of the alphabet. *)
Definition skipped_byte (b : byte) : bool :=
  negb (Byte.eqb (Base64.urlsafe_decode_byte b) Base64.BASE64_PAD) &&
  match Base64.a2b (Base64.urlsafe_decode_byte b) with
  | Some _ => false
  | None => true
  end.

(** A character all of whose UTF-8 bytes the decoding loop skips. *)
Definition skipped_char (c : Z) : bool :=
  match Utf8.encode_char c with
  | Some bs => forallb skipped_byte bs
  | None => false
  end.

(** The number of leaves of a document. *)
Fixpoint leaf_count (value : pyvalue) : nat :=
  match value with
  | PList l => fold_right (fun data n => (leaf_count data + n)%nat) 0%nat l
  | PDict items =>
      fold_right (fun item n => (leaf_count (snd item) + n)%nat) 0%nat items
  | _ => 1%nat
  end.

(** Every leaf of the document is a string of token characters. *)
Fixpoint token_leaves (value : pyvalue) : Prop :=
  match value with
  | PStr s => forallb urlsafe_char s = true
  | PList l =>
      (fix all (l : list pyvalue) : Prop :=
         match l with
         | [] => True
         | data :: rest => token_leaves data /\ all rest
         end) l
  | PDict items =>
      (fix all (items : list (text * pyvalue)) : Prop :=
         match items with
         | [] => True
         | (_, data) :: rest => token_leaves data /\ all rest
         end) items
  | _ => False
  end.

(** A key is passed over when it does not authenticate the ciphertext,
    or authenticates it to bytes that are not UTF-8. *)
Definition passed_over `{Crypto} (key nonce ciphertext : bytes) : Prop :=
  gcm_open key nonce ciphertext = None \/
  exists data, gcm_open key nonce ciphertext = Some data /\
               Utf8.decode data = Raise UnicodeDecodeError.

(** A byte is below 0x80 or skipped by the decoding loop. *)
Definition high_byte_skipped (b : byte) : bool :=
  (b2z b <? 0x80) || skipped_byte b.

(** Secrets and salts are all well-formed text. *)
Definition all_well_formed (cfg : settings) : Prop :=
  Forall Utf8.well_formed (secret_keys cfg) /\
  Forall Utf8.well_formed (salt_keys cfg).

(** The tests of [validators], named: a validator that already enforces
    the lower bound, and one that already enforces the upper bound. *)
Definition covers_min (min_value : Z) (v : EncryptedIntegerField.validator)
    : bool :=
  match v with
  | EncryptedIntegerField.MinValueValidator limit_value =>
      min_value <=? EncryptedIntegerField.limit_of limit_value
  | _ => false
  end.

Definition covers_max (max_value : Z) (v : EncryptedIntegerField.validator)
    : bool :=
  match v with
  | EncryptedIntegerField.MaxValueValidator limit_value =>
      EncryptedIntegerField.limit_of limit_value <=? max_value
  | _ => false
  end.

(** The keys of every dict of the shape are well-formed text and
    pairwise distinct. *)
Fixpoint plain_keys (s : shape) : Prop :=
  match s with
  | SLeaf => True
  | SList l =>
      (fix all (l : list shape) : Prop :=
         match l with
         | [] => True
         | x :: rest => plain_keys x /\ all rest
         end) l
  | SDict items =>
      NoDup (map fst items) /\
      (fix all (items : list (text * shape)) : Prop :=
         match items with
         | [] => True
         | (key, x) :: rest =>
             Utf8.well_formed key /\ plain_keys x /\ all rest
         end) items
  end.

(** What the field relies on: a document of tokens under plain keys is
    read back as it was written. *)
Class JsonLaws (J : Json) : Prop := {
  json_loads_dumps : forall value,
    token_leaves value -> plain_keys (shape_of value) ->
    exists dumped, json_dumps value = Ok dumped /\
                   json_loads dumped = Ok value
}.

(** ** More instances to run the model on

    A writer and reader for the JSON of documents of strings, lists and
    objects, with the escapes of the quote and the backslash, and two
    parent classes: one that accepts every value and one whose [clean]
    rejects falsy values. *)
Module RefJson.

Definition escape_char (c : Z) : text :=
  if (c =? 34) || (c =? 92) then [92; c] else [c].

Definition dump_string (s : text) : text :=
  34 :: flat_map escape_char s ++ [34].

Fixpoint dump (value : pyvalue) : text :=
  match value with
  | PNone => str_of "null"
  | PBool true => str_of "true"
  | PBool false => str_of "false"
  | PInt n => str_of (NilZero.string_of_int (Z.to_int n))
  | PStr s => dump_string s
  | PObj str_form _ => str_form
  | PList l =>
      91 :: (fix elems (l : list pyvalue) : text :=
               match l with
               | [] => [93]
               | x :: rest =>
                   dump x ++
                   match rest with
                   | [] => [93]
                   | _ => 44 :: 32 :: elems rest
                   end
               end) l
  | PDict items =>
      123 :: (fix members (items : list (text * pyvalue)) : text :=
                match items with
                | [] => [125]
                | (key, x) :: rest =>
                    dump_string key ++ 58 :: 32 :: dump x ++
                    match rest with
                    | [] => [125]
                    | _ => 44 :: 32 :: members rest
                    end
                end) items
  end.

Fixpoint dump_elems (l : list pyvalue) : text :=
  match l with
  | [] => [93]
  | x :: rest =>
      dump x ++
      match rest with
      | [] => [93]
      | _ => 44 :: 32 :: dump_elems rest
      end
  end.

Fixpoint dump_members (items : list (text * pyvalue)) : text :=
  match items with
  | [] => [125]
  | (key, x) :: rest =>
      dump_string key ++ 58 :: 32 :: dump x ++
      match rest with
      | [] => [125]
      | _ => 44 :: 32 :: dump_members rest
      end
  end.

(** The characters up to the closing quote, escapes undone. *)
Fixpoint parse_string (input : text) : option (text * text) :=
  match input with
  | [] => None
  | c :: r =>
      if c =? 34 then Some ([], r)
      else if c =? 92 then
        match r with
        | [] => None
        | d :: r' =>
            match parse_string r' with
            | Some (s, rest) => Some (d :: s, rest)
            | None => None
            end
        end
      else
        match parse_string r with
        | Some (s, rest) => Some (c :: s, rest)
        | None => None
        end
  end.

Fixpoint parse (fuel : nat) (input : text) : option (pyvalue * text) :=
  match fuel with
  | O => None
  | S fuel =>
      match input with
      | 34 :: r =>
          match parse_string r with
          | Some (s, rest) => Some (PStr s, rest)
          | None => None
          end
      | 91 :: r =>
          match parse_elems fuel r with
          | Some (l, rest) => Some (PList l, rest)
          | None => None
          end
      | 123 :: r =>
          match parse_members fuel r with
          | Some (items, rest) => Some (PDict items, rest)
          | None => None
          end
      | 110 :: 117 :: 108 :: 108 :: rest => Some (PNone, rest)
      | 116 :: 114 :: 117 :: 101 :: rest => Some (PBool true, rest)
      | 102 :: 97 :: 108 :: 115 :: 101 :: rest => Some (PBool false, rest)
      | _ => None
      end
  end
with parse_elems (fuel : nat) (input : text)
    : option (list pyvalue * text) :=
  match fuel with
  | O => None
  | S fuel =>
      match parse fuel input with
      | Some (x, 93 :: rest) => Some ([x], rest)
      | Some (x, 44 :: 32 :: r) =>
          match parse_elems fuel r with
          | Some (l, rest) => Some (x :: l, rest)
          | None => None
          end
      | Some _ => None
      | None =>
          match input with
          | 93 :: rest => Some ([], rest)
          | _ => None
          end
      end
  end
with parse_members (fuel : nat) (input : text)
    : option (list (text * pyvalue) * text) :=
  match fuel with
  | O => None
  | S fuel =>
      match input with
      | 125 :: rest => Some ([], rest)
      | 34 :: r =>
          match parse_string r with
          | Some (key, 58 :: 32 :: r1) =>
              match parse fuel r1 with
              | Some (x, 125 :: rest) => Some ([(key, x)], rest)
              | Some (x, 44 :: 32 :: r2) =>
                  match parse_members fuel r2 with
                  | Some (items, rest) => Some ((key, x) :: items, rest)
                  | None => None
                  end
              | _ => None
              end
          | _ => None
          end
      | _ => None
      end
  end.

Definition loads (s : text) : result pyvalue :=
  match parse (S (length s)) s with
  | Some (value, []) => Ok value
  | _ => Raise (ValueError "Expecting value")
  end.

(** The fuel the reader needs for what the writer wrote. *)
Fixpoint size (value : pyvalue) : nat :=
  match value with
  | PList l => S (fold_right (fun x n => S (size x + n)) 0%nat l)
  | PDict items => S (fold_right (fun item n => S (size (snd item) + n)) 0%nat items)
  | _ => 1%nat
  end.

#[export] Instance json : Json := {
  json_dumps := fun value => Ok (dump value);
  json_loads := loads
}.

End RefJson.

Module RefField.

(** [models.Field]: [to_python] hands the value on, [clean] is
    [to_python] with no validator to run. *)
#[export] Instance plain_parent : ParentField := {
  super_to_python := fun value => Ok value;
  super_clean := fun self_to_python value => self_to_python value
}.

(** A parent whose [clean] rejects falsy values, as a field with
    [blank=False] does; [ValueError] stands for its [ValidationError]. *)
Definition strict_parent : ParentField := {|
  super_to_python := fun value => Ok value;
  super_clean := fun self_to_python value =>
    match self_to_python value with
    | Ok cleaned =>
        if py_bool cleaned then Ok cleaned
        else Raise (ValueError "This field cannot be blank.")
    | Raise x => Raise x
    end
|}.

(** A document of two string leaves and the text stored for it. *)
Definition doc2 : pyvalue :=
  PDict [(str_of "name", PStr (str_of "Ada"));
         (str_of "tags", PList [PStr (str_of "x"); PInt 7])].

(** A legacy document, stored before the field was encrypted. *)
Definition legacy : pyvalue :=
  PDict [(str_of "k", PList [PStr (str_of "hello world"); PNone])].

(** The token of "hello" under [Ref.cfg1], and the same token with a
    line break after its tenth character. *)
Definition token1 : text :=
  Eval vm_compute in
    match fst (encrypt_value (crypto := Ref.crypto) Ref.cfg1 (str_of "hello")
                 Ref.tape1) with
    | Ok token => token
    | Raise _ => []
    end.

Definition token1_broken : text := firstn 10 token1 ++ 10 :: skipn 10 token1.

End RefField.

(** The fuel the reader of [RefJson] needs for the elements of a list
    and the members of an object, and what it is shown to do on a
    document of tokens. *)
Definition ref_size_elems (l : list pyvalue) : nat :=
  fold_right (fun x n => S (RefJson.size x + n)) 0%nat l.

Definition ref_size_members (items : list (text * pyvalue)) : nat :=
  fold_right (fun item n => S (RefJson.size (snd item) + n)) 0%nat items.

Definition ref_reads (value : pyvalue) : Prop :=
  token_leaves value ->
  (RefJson.size value < length (RefJson.dump value))%nat /\
  forall fuel rest, (RefJson.size value < fuel)%nat ->
    RefJson.parse fuel (RefJson.dump value ++ rest) = Some (value, rest).

(** What a walk that returns has done: see [encrypt_walk_outcome]. *)
Definition walk_result (doc doc' : pyvalue) (e e' : entropy) : Prop :=
  shape_of doc' = shape_of doc /\ token_leaves doc' /\ encodable doc /\
  forall i, e' i = e (12 * leaf_count doc + i)%nat.

(** Two further cases: a parent field that converts what it is given
    to an integer, and a configuration whose salt is not text that can
    be encoded. *)
Module RefCases.

(** The number a string of decimal digits writes, [None] at any other
    character. *)
Fixpoint digits_value (s : text) (acc : Z) : option Z :=
  match s with
  | [] => Some acc
  | c :: rest =>
      if (48 <=? c) && (c <=? 57) then digits_value rest (10 * acc + (c - 48))
      else None
  end.

(** [int] of a string of decimal digits with an optional minus sign;
    [None] where [int] raises [ValueError], as it does for the empty
    string. *)
Definition int_of_text (s : text) : option Z :=
  match s with
  | [] => None
  | 45 :: [] => None
  | 45 :: rest => option_map Z.opp (digits_value rest 0)
  | _ => digits_value s 0
  end.

(** A parent whose [get_prep_value] converts to an integer, in the way
    of [IntegerField]: [None] stays, an integer stays, a boolean becomes
    0 or 1, a string of digits becomes its number, and anything else is
    refused. *)
Definition integer_parent : FieldBase := {|
  super_get_prep_value := fun value =>
    match value with
    | PNone => Ok PNone
    | PInt n => Ok (PInt n)
    | PBool b => Ok (PInt (if b then 1 else 0))
    | PStr s =>
        match int_of_text s with
        | Some n => Ok (PInt n)
        | None => Raise (ValueError "Field expected a number.")
        end
    | _ => Raise (ValueError "Field expected a number.")
    end
|}.

(** One secret and one salt, the salt a lone surrogate. *)
Definition cfg_surrogate : settings := {|
  SECRET_KEY := str_of "s1";
  SECRET_KEY_FALLBACKS := None;
  SALT_KEY := SaltStr [0xD800]
|}.

End RefCases.

(** * Proofs

    ** Bytes and UTF-8 *)

Lemma b2z_range (b : byte) : 0 <= b2z b < 256.
Proof.
  unfold b2z. pose proof (Byte.to_N_bounded b) as Hb.
  split; [apply N2Z.is_nonneg | lia].
Qed.

Lemma b2z_z2b_mod (z : Z) : b2z (z2b z) = z mod 256.
Proof.
  unfold z2b, b2z.
  assert (Hm : 0 <= z mod 256 < 256) by (apply Z.mod_pos_bound; lia).
  destruct (Byte.of_N (Z.to_N (z mod 256))) as [b|] eqn:E.
  - apply Byte.to_of_N in E. rewrite E. apply Z2N.id. lia.
  - apply Byte.of_N_None_iff in E. lia.
Qed.

Lemma b2z_z2b (z : Z) : 0 <= z < 256 -> b2z (z2b z) = z.
Proof. intros H. rewrite b2z_z2b_mod. apply Z.mod_small. exact H. Qed.

Lemma z2b_b2z (b : byte) : z2b (b2z b) = b.
Proof.
  unfold z2b. rewrite Z.mod_small by apply b2z_range.
  unfold b2z. rewrite N2Z.id, Byte.of_to_N. reflexivity.
Qed.

Lemma b2z_inj (a b : byte) : b2z a = b2z b -> a = b.
Proof. intros H. rewrite <- (z2b_b2z a), <- (z2b_b2z b), H. reflexivity. Qed.

Lemma Some_inj {A} (a b : A) : Some a = Some b -> a = b.
Proof. congruence. Qed.

Lemma utf8_decode_encode_char (c : Z) (bs rest : bytes) :
  Utf8.encode_char c = Some bs ->
  Utf8.decode (bs ++ rest) =
  match Utf8.decode rest with Ok s => Ok (c :: s) | Raise e => Raise e end.
Proof.
  unfold Utf8.encode_char.
  destruct (Z.ltb_spec c 0); [discriminate |].
  destruct (Z.ltb_spec c 0x80).
  { intros E. apply Some_inj in E. subst bs. cbn [app Utf8.decode].
    rewrite b2z_z2b by lia.
    destruct (Z.ltb_spec c 128); [reflexivity | lia]. }
  destruct (Z.ltb_spec c 0x800).
  { intros E. apply Some_inj in E. subst bs.
    cbn [app Utf8.decode]. unfold Utf8.is_cont, Utf8.cont.
    rewrite !b2z_z2b by zrange.
    replace ((192 + c / 64 - 192) * 64 + (128 + c mod 64 - 128)) with c by zrange.
    ltb_cases. reflexivity. }
  destruct (Z.ltb_spec c 0x10000).
  { destruct (Z.leb_spec 0xD800 c); destruct (Z.leb_spec c 0xDFFF);
      cbn [andb]; try discriminate.
    all: intros E; apply Some_inj in E; subst bs;
      cbn [app Utf8.decode]; unfold Utf8.is_cont, Utf8.cont;
      rewrite !b2z_z2b by zrange;
      replace ((224 + c / 4096 - 224) * 4096 + (128 + (c / 64) mod 64 - 128) * 64
               + (128 + c mod 64 - 128)) with c by zrange;
      ltb_cases; reflexivity. }
  destruct (Z.ltb_spec c 0x110000); [| discriminate].
  intros E. apply Some_inj in E. subst bs.
  cbn [app Utf8.decode]. unfold Utf8.is_cont, Utf8.cont.
  rewrite !b2z_z2b by zrange.
  replace ((240 + c / 262144 - 240) * 262144 + (128 + (c / 4096) mod 64 - 128) * 4096
           + (128 + (c / 64) mod 64 - 128) * 64 + (128 + c mod 64 - 128))
    with c by zrange.
  ltb_cases. reflexivity.
Qed.

Lemma utf8_decode_encode (s : text) (bs : bytes) :
  Utf8.encode s = Ok bs -> Utf8.decode bs = Ok s.
Proof.
  revert bs. induction s as [| c s IH]; intros bs; cbn [Utf8.encode].
  - intros E. injection E as <-. reflexivity.
  - destruct (Utf8.encode_char c) as [cs |] eqn:Ec; [| discriminate].
    destruct (Utf8.encode s) as [rest | e]; [| discriminate].
    intros E. injection E as <-.
    rewrite (utf8_decode_encode_char _ _ _ Ec), (IH rest eq_refl). reflexivity.
Qed.

Lemma utf8_encode_char_total (c : Z) :
  Utf8.scalar_value c -> exists bs, Utf8.encode_char c = Some bs.
Proof.
  intros [Hr Hs]. unfold Utf8.encode_char.
  destruct (Z.ltb_spec c 0); [lia |].
  destruct (Z.ltb_spec c 0x80); [eauto |].
  destruct (Z.ltb_spec c 0x800); [eauto |].
  destruct (Z.ltb_spec c 0x10000).
  - destruct (Z.leb_spec 0xD800 c); destruct (Z.leb_spec c 0xDFFF);
      cbn [andb]; eauto. lia.
  - destruct (Z.ltb_spec c 0x110000); [eauto | lia].
Qed.

Lemma utf8_encode_total (s : text) :
  Utf8.well_formed s -> exists bs, Utf8.encode s = Ok bs.
Proof.
  induction 1 as [| c s Hc _ [rest IH]]; cbn [Utf8.encode].
  - eauto.
  - destruct (utf8_encode_char_total c Hc) as [cs ->]. rewrite IH. eauto.
Qed.

(** ** Checking a property of every byte by evaluation *)

Import Base64.

Lemma in_all_bytes (b : byte) : In b all_bytes.
Proof.
  unfold all_bytes. apply in_map_iff. exists (Z.to_nat (b2z b)).
  pose proof (b2z_range b) as Hb. split.
  - rewrite Z2Nat.id by lia. apply z2b_b2z.
  - apply in_seq. lia.
Qed.

Lemma forall_byte (P : byte -> bool) :
  forallb P all_bytes = true -> forall b, P b = true.
Proof. intros H b. exact (proj1 (forallb_forall P all_bytes) H b (in_all_bytes b)). Qed.

Lemma forall_byte2 (P : byte -> byte -> bool) :
  forallb (fun a => forallb (P a) all_bytes) all_bytes = true ->
  forall a b, P a b = true.
Proof.
  intros H a b. apply forall_byte.
  exact (forall_byte (fun a => forallb (P a) all_bytes) H a).
Qed.

Lemma forall_sextet (P : Z -> bool) :
  forallb P all_sextets = true -> forall i, 0 <= i < 64 -> P i = true.
Proof.
  intros H i Hi. apply (proj1 (forallb_forall P all_sextets) H).
  unfold all_sextets. apply in_map_iff. exists (Z.to_nat i). split.
  - apply Z2Nat.id. lia.
  - apply in_seq. lia.
Qed.

Lemma in_sextet_range i : in_sextet i = true -> 0 <= i < 64.
Proof. unfold in_sextet. intros H. apply andb_prop in H. lia. Qed.

Lemma sextet0_range b0 : 0 <= sextet0 b0 < 64.
Proof. apply in_sextet_range. revert b0. apply forall_byte. vm_compute. reflexivity. Qed.

Lemma sextet1_range b0 b1 : 0 <= sextet1 b0 b1 < 64.
Proof. apply in_sextet_range. revert b0 b1. apply forall_byte2. vm_compute. reflexivity. Qed.

Lemma sextet2_range b1 b2 : 0 <= sextet2 b1 b2 < 64.
Proof. apply in_sextet_range. revert b1 b2. apply forall_byte2. vm_compute. reflexivity. Qed.

Lemma sextet3_range b2 : 0 <= sextet3 b2 < 64.
Proof. apply in_sextet_range. revert b2. apply forall_byte. vm_compute. reflexivity. Qed.

(** ** URL-safe base64 decodes what it encodes *)

Lemma wire_not_pad i : 0 <= i < 64 -> Byte.eqb (wire i) BASE64_PAD = false.
Proof.
  intros Hi. apply negb_true_iff.
  revert i Hi. apply (forall_sextet (fun i => negb (Byte.eqb (wire i) BASE64_PAD))).
  vm_compute. reflexivity.
Qed.

Lemma wire_a2b i : 0 <= i < 64 -> a2b (wire i) = Some i.
Proof.
  intros Hi.
  assert (H : is_some_Z (a2b (wire i)) i = true).
  { revert i Hi. apply (forall_sextet (fun i => is_some_Z (a2b (wire i)) i)).
    vm_compute. reflexivity. }
  destruct (a2b (wire i)) as [j |]; [| discriminate].
  apply Z.eqb_eq in H. congruence.
Qed.

Lemma pad_wire :
  urlsafe_decode_byte (urlsafe_encode_byte BASE64_PAD) = BASE64_PAD.
Proof. reflexivity. Qed.

Lemma eqb_true_eq a b : Byte.eqb a b = true -> a = b.
Proof. apply Byte.byte_dec_bl. Qed.

Lemma quantum_byte0 b0 b1 :
  z2b (Z.lor (Z.shiftl (sextet0 b0) 2) (Z.shiftr (sextet1 b0 b1) 4)) = b0.
Proof.
  apply eqb_true_eq. revert b0 b1.
  apply (forall_byte2 (fun b0 b1 =>
    Byte.eqb (z2b (Z.lor (Z.shiftl (sextet0 b0) 2) (Z.shiftr (sextet1 b0 b1) 4))) b0)).
  vm_compute. reflexivity.
Qed.

Lemma quantum_carry1 b0 b1 : Z.land (sextet1 b0 b1) 0x0f = Z.shiftr (b2z b1) 4.
Proof.
  apply Z.eqb_eq. revert b0 b1.
  apply (forall_byte2 (fun b0 b1 =>
    Z.land (sextet1 b0 b1) 0x0f =? Z.shiftr (b2z b1) 4)).
  vm_compute. reflexivity.
Qed.

Lemma quantum_byte1 b1 b2 :
  z2b (Z.lor (Z.shiftl (Z.shiftr (b2z b1) 4) 4) (Z.shiftr (sextet2 b1 b2) 2)) = b1.
Proof.
  apply eqb_true_eq. revert b1 b2.
  apply (forall_byte2 (fun b1 b2 =>
    Byte.eqb (z2b (Z.lor (Z.shiftl (Z.shiftr (b2z b1) 4) 4)
                         (Z.shiftr (sextet2 b1 b2) 2))) b1)).
  vm_compute. reflexivity.
Qed.

Lemma quantum_carry2 b1 b2 : Z.land (sextet2 b1 b2) 0x03 = Z.shiftr (b2z b2) 6.
Proof.
  apply Z.eqb_eq. revert b1 b2.
  apply (forall_byte2 (fun b1 b2 =>
    Z.land (sextet2 b1 b2) 0x03 =? Z.shiftr (b2z b2) 6)).
  vm_compute. reflexivity.
Qed.

Lemma quantum_byte2 b2 :
  z2b (Z.lor (Z.shiftl (Z.shiftr (b2z b2) 6) 6) (sextet3 b2)) = b2.
Proof.
  apply eqb_true_eq. revert b2.
  apply (forall_byte (fun b2 =>
    Byte.eqb (z2b (Z.lor (Z.shiftl (Z.shiftr (b2z b2) 6) 6) (sextet3 b2))) b2)).
  vm_compute. reflexivity.
Qed.

(** One step of the loop on an alphabet byte. *)
Lemma a2b_loop_wire i rest quad_pos leftchar pads out :
  0 <= i < 64 ->
  a2b_loop (wire i :: rest) quad_pos leftchar pads out =
  match quad_pos with
  | O => a2b_loop rest 1 i 0 out
  | 1%nat =>
      a2b_loop rest 2 (Z.land i 0x0f) 0
        (out ++ [z2b (Z.lor (Z.shiftl leftchar 2) (Z.shiftr i 4))])
  | 2%nat =>
      a2b_loop rest 3 (Z.land i 0x03) 0
        (out ++ [z2b (Z.lor (Z.shiftl leftchar 4) (Z.shiftr i 2))])
  | _ => a2b_loop rest 0 0 0 (out ++ [z2b (Z.lor (Z.shiftl leftchar 6) i)])
  end.
Proof.
  intros Hi. cbn [a2b_loop].
  rewrite (wire_not_pad i Hi), (wire_a2b i Hi). reflexivity.
Qed.

Lemma a2b_loop_one b0 rest leftchar pads out :
  a2b_loop (wire (sextet0 b0) :: wire (sextet1 b0 x00) :: rest) 0 leftchar pads out =
  a2b_loop rest 2 0 0 (out ++ [b0]).
Proof.
  rewrite a2b_loop_wire by apply sextet0_range.
  rewrite a2b_loop_wire by apply sextet1_range.
  rewrite quantum_byte0, quantum_carry1. reflexivity.
Qed.

Lemma a2b_loop_two b0 b1 rest leftchar pads out :
  a2b_loop (wire (sextet0 b0) :: wire (sextet1 b0 b1) :: wire (sextet2 b1 x00) :: rest)
    0 leftchar pads out =
  a2b_loop rest 3 0 0 (out ++ [b0; b1]).
Proof.
  rewrite a2b_loop_wire by apply sextet0_range.
  rewrite a2b_loop_wire by apply sextet1_range.
  rewrite a2b_loop_wire by apply sextet2_range.
  rewrite quantum_byte0, quantum_carry1, quantum_byte1, quantum_carry2.
  rewrite <- app_assoc. reflexivity.
Qed.

Lemma a2b_loop_three b0 b1 b2 rest leftchar pads out :
  a2b_loop (wire (sextet0 b0) :: wire (sextet1 b0 b1) :: wire (sextet2 b1 b2)
            :: wire (sextet3 b2) :: rest) 0 leftchar pads out =
  a2b_loop rest 0 0 0 (out ++ [b0; b1; b2]).
Proof.
  rewrite a2b_loop_wire by apply sextet0_range.
  rewrite a2b_loop_wire by apply sextet1_range.
  rewrite a2b_loop_wire by apply sextet2_range.
  rewrite a2b_loop_wire by apply sextet3_range.
  rewrite quantum_byte0, quantum_carry1, quantum_byte1, quantum_carry2,
    quantum_byte2.
  rewrite <- !app_assoc. reflexivity.
Qed.

Lemma list_ind3 {A} (P : list A -> Prop) :
  P [] -> (forall a, P [a]) -> (forall a b, P [a; b]) ->
  (forall a b c l, P l -> P (a :: b :: c :: l)) ->
  forall l, P l.
Proof.
  intros H0 H1 H2 H3 l.
  enough (H : P l /\ (forall a, P (a :: l)) /\ (forall a b, P (a :: b :: l)))
    by apply H.
  induction l as [| x l (IH0 & IH1 & IH2)].
  - auto.
  - repeat split; auto.
Qed.

Lemma a2b_loop_b2a (s : bytes) : forall leftchar pads out,
  a2b_loop (map urlsafe_decode_byte (urlsafe_b64encode s)) 0 leftchar pads out =
  Ok (out ++ s).
Proof.
  unfold urlsafe_b64encode.
  induction s as [| b0 | b0 b1 | b0 b1 b2 s IH] using list_ind3;
    intros leftchar pads out.
  - cbn. rewrite app_nil_r. reflexivity.
  - cbn [b2a_base64 map]. fold (wire (sextet0 b0)) (wire (sextet1 b0 x00)).
    rewrite a2b_loop_one. rewrite !pad_wire. reflexivity.
  - cbn [b2a_base64 map].
    fold (wire (sextet0 b0)) (wire (sextet1 b0 b1)) (wire (sextet2 b1 x00)).
    rewrite a2b_loop_two. rewrite !pad_wire. reflexivity.
  - cbn [b2a_base64 map].
    fold (wire (sextet0 b0)) (wire (sextet1 b0 b1)) (wire (sextet2 b1 b2))
      (wire (sextet3 b2)).
    rewrite a2b_loop_three, IH, <- app_assoc. reflexivity.
Qed.

Theorem urlsafe_b64decode_encode (s : bytes) :
  urlsafe_b64decode (urlsafe_b64encode s) = Ok s.
Proof. unfold urlsafe_b64decode, a2b_base64. apply a2b_loop_b2a. Qed.

Lemma b2a_ascii i : is_ascii (urlsafe_encode_byte (b2a i)) = true.
Proof.
  unfold b2a.
  destruct (nth_in_or_default (Z.to_nat i) table_b2a_base64 BASE64_PAD) as [Hin | ->];
    [| reflexivity].
  revert Hin. generalize (nth (Z.to_nat i) table_b2a_base64 BASE64_PAD). intros c.
  apply (proj1 (forallb_forall (fun c => is_ascii (urlsafe_encode_byte c)) table_b2a_base64)).
  vm_compute. reflexivity.
Qed.

Lemma urlsafe_b64encode_ascii (s : bytes) :
  forallb is_ascii (urlsafe_b64encode s) = true.
Proof.
  unfold urlsafe_b64encode.
  induction s as [| b0 | b0 b1 | b0 b1 b2 s IH] using list_ind3;
    cbn [b2a_base64 map forallb]; rewrite ?b2a_ascii, ?IH; reflexivity.
Qed.

Lemma utf8_decode_ascii (bs : bytes) :
  forallb is_ascii bs = true -> Utf8.decode bs = Ok (map b2z bs).
Proof.
  induction bs as [| b bs IH]; cbn [forallb map Utf8.decode]; [reflexivity |].
  intros H. apply andb_prop in H. destruct H as [Hb Hbs].
  unfold is_ascii in Hb. rewrite Hb, (IH Hbs). reflexivity.
Qed.

Lemma utf8_encode_ascii (bs : bytes) :
  forallb is_ascii bs = true -> Utf8.encode (map b2z bs) = Ok bs.
Proof.
  induction bs as [| b bs IH]; cbn [forallb map Utf8.encode]; [reflexivity |].
  intros H. apply andb_prop in H. destruct H as [Hb Hbs].
  unfold is_ascii in Hb. unfold Utf8.encode_char.
  pose proof (b2z_range b) as Hr.
  destruct (Z.ltb_spec (b2z b) 0); [lia |].
  rewrite Hb, (IH Hbs), z2b_b2z. reflexivity.
Qed.

(** ** Key derivation *)

Lemma utf8_bytes_ok (s : text) (bs : bytes) :
  Utf8.encode s = Ok bs -> utf8_bytes s = bs.
Proof. unfold utf8_bytes. intros ->. reflexivity. Qed.

Lemma utf8_encode_bytes (s : text) :
  Utf8.well_formed s -> Utf8.encode s = Ok (utf8_bytes s).
Proof.
  intros H. destruct (utf8_encode_total s H) as [bs E].
  rewrite (utf8_bytes_ok _ _ E). exact E.
Qed.

Lemma str_of_well_formed (s : string) : Utf8.well_formed (str_of s).
Proof.
  unfold Utf8.well_formed, str_of. apply Forall_forall. intros c Hc.
  apply in_map_iff in Hc. destruct Hc as [a [<- _]].
  pose proof (N_ascii_bounded a) as Ha. unfold Utf8.scalar_value. lia.
Qed.

Section KeyDerivation.

Context {crypto : Crypto}.

(** The inner loop appends one key per salt. *)
Lemma keys_inner_ok (secret_key : text) (salts : list text) :
  forall acc r,
  for_each salts (fun salt_key keys =>
      (salt <- Utf8.encode salt_key ;;
       password <- Utf8.encode secret_key ;;
       Ok (keys ++ [pbkdf2_hmac_sha256 password salt 100000 32]))%res) acc = Ok r ->
  r = acc ++ map (key_of secret_key) salts.
Proof.
  induction salts as [| salt_key salts IH]; intros acc r; cbn [for_each map].
  - intros [= <-]. rewrite app_nil_r. reflexivity.
  - unfold rbind at 1.
    destruct (Utf8.encode salt_key) as [salt |] eqn:Es; [| discriminate].
    unfold rbind at 1.
    destruct (Utf8.encode secret_key) as [password |] eqn:Ep; [| discriminate].
    intros H. apply IH in H. subst r. rewrite <- app_assoc. cbn [app].
    unfold key_of. rewrite (utf8_bytes_ok _ _ Es), (utf8_bytes_ok _ _ Ep).
    reflexivity.
Qed.

Lemma keys_inner_total (secret_key : text) (salts : list text) :
  Utf8.well_formed secret_key -> Forall Utf8.well_formed salts ->
  forall acc,
  for_each salts (fun salt_key keys =>
      (salt <- Utf8.encode salt_key ;;
       password <- Utf8.encode secret_key ;;
       Ok (keys ++ [pbkdf2_hmac_sha256 password salt 100000 32]))%res) acc =
  Ok (acc ++ map (key_of secret_key) salts).
Proof.
  intros Hsec Hsalts. set (body := fun _ _ => _).
  induction Hsalts as [| salt_key salts Hs _ IH];
    intros acc; cbn [for_each map].
  - rewrite app_nil_r. reflexivity.
  - unfold body at 1.
    rewrite (utf8_encode_bytes _ Hs), (utf8_encode_bytes _ Hsec).
    cbn [rbind]. rewrite IH, <- app_assoc. reflexivity.
Qed.

Lemma keys_outer_ok (salts secrets : list text) :
  forall acc r,
  for_each secrets (fun secret_key keys =>
    for_each salts (fun salt_key keys =>
      (salt <- Utf8.encode salt_key ;;
       password <- Utf8.encode secret_key ;;
       Ok (keys ++ [pbkdf2_hmac_sha256 password salt 100000 32]))%res) keys) acc = Ok r ->
  r = acc ++ flat_map (fun secret_key => map (key_of secret_key) salts) secrets.
Proof.
  induction secrets as [| secret_key secrets IH]; intros acc r;
    cbn [for_each flat_map].
  - intros [= <-]. rewrite app_nil_r. reflexivity.
  - destruct (for_each salts _ acc) as [acc' |] eqn:Ein; [| discriminate].
    apply keys_inner_ok in Ein. subst acc'.
    intros H. apply IH in H. subst r. rewrite <- app_assoc. reflexivity.
Qed.

Lemma keys_outer_total (salts secrets : list text) :
  Forall Utf8.well_formed salts -> Forall Utf8.well_formed secrets ->
  forall acc,
  for_each secrets (fun secret_key keys =>
    for_each salts (fun salt_key keys =>
      (salt <- Utf8.encode salt_key ;;
       password <- Utf8.encode secret_key ;;
       Ok (keys ++ [pbkdf2_hmac_sha256 password salt 100000 32]))%res) keys) acc =
  Ok (acc ++ flat_map (fun secret_key => map (key_of secret_key) salts) secrets).
Proof.
  intros Hsalts Hsecs. induction Hsecs as [| secret_key secrets Hs _ IH];
    intros acc; cbn [for_each flat_map].
  - rewrite app_nil_r. reflexivity.
  - rewrite (keys_inner_total _ _ Hs Hsalts), IH, <- app_assoc. reflexivity.
Qed.

(** Whenever key derivation returns, it returns the key table. *)
Lemma keys_inv (cfg : settings) (ks : list bytes) :
  keys cfg = Ok ks -> ks = key_table cfg.
Proof. unfold keys, key_table. intros H. apply keys_outer_ok in H. exact H. Qed.

(** Key derivation returns when secrets and salts are well-formed. *)
Lemma keys_total (cfg : settings) :
  Forall Utf8.well_formed (secret_keys cfg) ->
  Forall Utf8.well_formed (salt_keys cfg) ->
  keys cfg = Ok (key_table cfg).
Proof.
  intros Hsec Hsalt. unfold keys, key_table.
  rewrite (keys_outer_total _ _ Hsalt Hsec). reflexivity.
Qed.

Lemma key_table_length (cfg : settings) :
  length (key_table cfg) =
  (length (secret_keys cfg) * length (salt_keys cfg))%nat.
Proof.
  unfold key_table. induction (secret_keys cfg) as [| s l IH]; cbn [flat_map length].
  - reflexivity.
  - rewrite length_app, length_map, IH. cbn. reflexivity.
Qed.

Lemma key_table_nth (cfg : settings) (i j : nat) (secret_key salt_key : text) :
  nth_error (secret_keys cfg) i = Some secret_key ->
  nth_error (salt_keys cfg) j = Some salt_key ->
  nth_error (key_table cfg) (i * length (salt_keys cfg) + j) =
  Some (key_of secret_key salt_key).
Proof.
  unfold key_table. generalize (salt_keys cfg) as salts. intros salts.
  revert i. induction (secret_keys cfg) as [| s l IH]; intros i Hi Hj.
  - destruct i; discriminate.
  - assert (Hlt : (j < length salts)%nat)
      by (apply nth_error_Some; congruence).
    cbn [flat_map]. destruct i as [| i]; cbn [nth_error] in Hi.
    + injection Hi as ->. cbn [Nat.mul Nat.add].
      rewrite nth_error_app1 by (rewrite length_map; exact Hlt).
      rewrite nth_error_map, Hj. reflexivity.
    + rewrite nth_error_app2 by (rewrite length_map; cbn; lia).
      rewrite length_map.
      replace (S i * length salts + j - length salts)%nat
        with (i * length salts + j)%nat by (cbn; lia).
      apply IH; assumption.
Qed.

Context {laws : CryptoLaws crypto}.

Lemma key_of_length (secret_key salt_key : text) :
  length (key_of secret_key salt_key) = 32%nat.
Proof. unfold key_of. apply pbkdf2_length. Qed.

Lemma key_table_sizes (cfg : settings) :
  Forall (fun key => length key = 32%nat) (key_table cfg).
Proof.
  unfold key_table. apply Forall_forall. intros key Hin.
  apply in_flat_map in Hin. destruct Hin as [s [_ Hin]].
  apply in_map_iff in Hin. destruct Hin as [t [<- _]]. apply key_of_length.
Qed.

Lemma AESGCM_32 (key : bytes) : length key = 32%nat -> AESGCM key = Ok key.
Proof. intros H. unfold AESGCM, aes_key_size. rewrite H. reflexivity. Qed.

End KeyDerivation.

(** ** Tokens and the loop over the keys *)

Lemma next_nonce_length (e : entropy) : length (next_nonce e) = 12%nat.
Proof. unfold next_nonce, urandom. cbn [fst]. rewrite length_map, length_seq. reflexivity. Qed.

Lemma token_text_decode (encrypted : bytes) :
  Utf8.decode (Base64.urlsafe_b64encode encrypted) = Ok (token_text encrypted).
Proof. apply utf8_decode_ascii, urlsafe_b64encode_ascii. Qed.

Lemma token_text_encode (encrypted : bytes) :
  Utf8.encode (token_text encrypted) = Ok (Base64.urlsafe_b64encode encrypted).
Proof. apply utf8_encode_ascii, urlsafe_b64encode_ascii. Qed.

Lemma map_b2z_inj (a b : bytes) : map b2z a = map b2z b -> a = b.
Proof.
  revert b. induction a as [| x a IH]; intros [| y b]; cbn [map];
    try discriminate; [reflexivity |].
  intros H. injection H as Hx Hab. apply b2z_inj in Hx. rewrite (IH _ Hab), Hx.
  reflexivity.
Qed.

Lemma token_text_inj (a b : bytes) : token_text a = token_text b -> a = b.
Proof.
  unfold token_text. intros H. apply map_b2z_inj in H.
  apply (f_equal Base64.urlsafe_b64decode) in H.
  rewrite !urlsafe_b64decode_encode in H. congruence.
Qed.

Lemma split_envelope (nonce ciphertext : bytes) :
  length nonce = 12%nat ->
  firstn 12 (nonce ++ ciphertext) = nonce /\
  skipn 12 (nonce ++ ciphertext) = ciphertext.
Proof.
  intros H. rewrite <- H.
  rewrite firstn_app, skipn_app, Nat.sub_diag, firstn_all, skipn_all.
  cbn [firstn skipn app]. rewrite app_nil_r. split; reflexivity.
Qed.

Section Codec.

Context {crypto : Crypto}.

(** [encrypt_value] step by step, when a first key of a valid size exists
    and the plaintext has a UTF-8 form. *)
Lemma encrypt_value_run (cfg : settings) (key : bytes) (ks : list bytes)
    (plaintext : text) (data : bytes) (e : entropy) :
  keys cfg = Ok (key :: ks) -> aes_key_size key = true ->
  Utf8.encode plaintext = Ok data ->
  encrypt_value cfg plaintext e =
  (Ok (token_text (next_nonce e ++ gcm_seal key (next_nonce e) data)),
   snd (urandom 12 e)).
Proof.
  intros Hk Hsize Hdata. unfold encrypt_value, bind, lift, os_urandom.
  rewrite Hk. cbn [getitem nth_error]. unfold AESGCM. rewrite Hsize.
  unfold next_nonce. destruct (urandom 12 e) as [nonce e'] eqn:Eu.
  cbn [fst snd]. rewrite Hdata. unfold AESGCM_encrypt.
  assert (Hn : gcm_nonce_size nonce = true).
  { unfold gcm_nonce_size. pose proof (next_nonce_length e) as Hl.
    unfold next_nonce in Hl. rewrite Eu in Hl. cbn [fst] in Hl. rewrite Hl.
    reflexivity. }
  rewrite Hn, token_text_decode. reflexivity.
Qed.

(** Whatever [encrypt_value] returns is the token of a 12-byte nonce
    followed by some ciphertext. *)
Lemma encrypt_value_inv (cfg : settings) (plaintext token : text)
    (e e' : entropy) :
  encrypt_value cfg plaintext e = (Ok token, e') ->
  exists ciphertext, token = token_text (next_nonce e ++ ciphertext).
Proof.
  unfold encrypt_value, bind, lift, os_urandom, next_nonce.
  destruct (keys cfg) as [ks |]; [| discriminate].
  destruct (getitem ks 0) as [key |]; [| discriminate].
  destruct (AESGCM key) as [aesgcm |]; [| discriminate].
  destruct (urandom 12 e) as [nonce e1]. cbn [fst].
  destruct (Utf8.encode plaintext) as [data |]; [| discriminate].
  destruct (AESGCM_encrypt aesgcm nonce data) as [ciphertext |]; [| discriminate].
  rewrite token_text_decode. intros [= <- <-]. eauto.
Qed.

(** [decrypt_value] on a token: the envelope is recovered and handed to
    the loop over the keys. *)
Lemma decrypt_value_token (cfg : settings) (encrypted : bytes) :
  decrypt_value cfg (token_text encrypted) =
  (ks <- keys cfg ;;
   decrypt_loop ks (firstn 12 encrypted) (skipn 12 encrypted))%res.
Proof.
  unfold decrypt_value. rewrite token_text_encode. cbn [rbind].
  rewrite urlsafe_b64decode_encode. reflexivity.
Qed.

Lemma decrypt_loop_exhausted (ks : list bytes) (nonce ciphertext : bytes) :
  Forall (fun key => aes_key_size key = true) ks ->
  (forall key, In key ks -> gcm_open key nonce ciphertext = None) ->
  decrypt_loop ks nonce ciphertext =
  Raise (ValueError "Decryption failed with all provided keys.").
Proof.
  induction 1 as [| key ks Hsize _ IH]; intros Hrej; cbn [decrypt_loop].
  - reflexivity.
  - unfold AESGCM. rewrite Hsize. cbn [rbind].
    unfold AESGCM_decrypt. rewrite (Hrej key (or_introl eq_refl)).
    destruct (gcm_nonce_size nonce); cbn [rbind];
      apply IH; intros k Hk; apply Hrej; right; exact Hk.
Qed.

Lemma decrypt_loop_found (ks : list bytes) (key nonce ciphertext data : bytes)
    (plaintext : text) :
  Forall (fun key => aes_key_size key = true) ks ->
  In key ks ->
  (forall key', In key' ks -> key' <> key ->
                gcm_open key' nonce ciphertext = None) ->
  gcm_nonce_size nonce = true ->
  gcm_open key nonce ciphertext = Some data ->
  Utf8.decode data = Ok plaintext ->
  decrypt_loop ks nonce ciphertext = Ok plaintext.
Proof.
  intros Hsizes Hin Hrej Hn Hopen Hdec.
  induction Hsizes as [| k ks Hsize _ IH]; [contradiction |].
  cbn [decrypt_loop]. unfold AESGCM. rewrite Hsize. cbn [rbind].
  unfold AESGCM_decrypt. rewrite Hn.
  destruct (list_eq_dec Byte.byte_eq_dec k key) as [-> | Hne].
  - rewrite Hopen. cbn [rbind]. rewrite Hdec. reflexivity.
  - rewrite (Hrej k (or_introl eq_refl) Hne). cbn [rbind]. apply IH.
    + destruct Hin as [-> | Hin]; [contradiction | exact Hin].
    + intros k' Hk'. apply Hrej. right. exact Hk'.
Qed.

Context {laws : CryptoLaws crypto}.

Lemma keys_sizes (cfg : settings) (ks : list bytes) :
  keys cfg = Ok ks -> Forall (fun key => aes_key_size key = true) ks.
Proof.
  intros H. apply keys_inv in H. subst ks.
  eapply Forall_impl; [| apply key_table_sizes].
  intros key Hl. unfold aes_key_size. rewrite Hl. reflexivity.
Qed.

Lemma well_configured_keys (cfg : settings) :
  well_configured cfg ->
  exists key ks, keys cfg = Ok (key :: ks) /\ aes_key_size key = true.
Proof.
  intros (Hsec & Hsalt & Hne).
  pose proof (keys_total cfg Hsec Hsalt) as Hk.
  pose proof (keys_sizes cfg _ Hk) as Hs.
  destruct (key_table cfg) as [| key ks] eqn:Et.
  - exfalso. pose proof (key_table_length cfg) as Hl. rewrite Et in Hl.
    unfold secret_keys in Hl. cbn [length app] in Hl.
    destruct (salt_keys cfg); [contradiction | cbn in Hl; lia].
  - exists key, ks. split; [exact Hk | exact (Forall_inv Hs)].
Qed.

Lemma open_sealed (key data : bytes) (e : entropy) :
  let nonce := next_nonce e in
  let encrypted := nonce ++ gcm_seal key nonce data in
  aes_key_size key = true ->
  gcm_open key (firstn 12 encrypted) (skipn 12 encrypted) = Some data /\
  gcm_nonce_size (firstn 12 encrypted) = true.
Proof.
  intros nonce encrypted Hsize. subst encrypted.
  destruct (split_envelope nonce (gcm_seal key nonce data)
              (next_nonce_length e)) as [-> ->].
  assert (Hn : gcm_nonce_size nonce = true)
    by (unfold gcm_nonce_size, nonce; rewrite next_nonce_length; reflexivity).
  split; [apply gcm_open_seal; assumption | exact Hn].
Qed.

End Codec.

Section CodecProperties.

Context {crypto : Crypto}.

Lemma decrypt_value_passthrough (cfg : settings) (s : text) (x : exn) :
  envelope_of s = Raise x -> decrypt_value cfg s = Ok s.
Proof. unfold decrypt_value, envelope_of. intros ->. reflexivity. Qed.

Lemma decrypt_value_envelope (cfg : settings) (s : text) (encrypted : bytes) :
  envelope_of s = Ok encrypted ->
  decrypt_value cfg s =
  (ks <- keys cfg ;;
   decrypt_loop ks (firstn 12 encrypted) (skipn 12 encrypted))%res.
Proof. unfold decrypt_value, envelope_of. intros ->. reflexivity. Qed.

Lemma decrypt_loop_head (key : bytes) (ks : list bytes)
    (nonce ciphertext data : bytes) (plaintext : text) :
  aes_key_size key = true -> gcm_nonce_size nonce = true ->
  gcm_open key nonce ciphertext = Some data ->
  Utf8.decode data = Ok plaintext ->
  decrypt_loop (key :: ks) nonce ciphertext = Ok plaintext.
Proof.
  intros Hsize Hn Hopen Hdec. cbn [decrypt_loop].
  unfold AESGCM. rewrite Hsize. cbn [rbind].
  unfold AESGCM_decrypt. rewrite Hn, Hopen. cbn [rbind].
  rewrite Hdec. reflexivity.
Qed.

(** A token that came out of [encrypt_value] under a known first key is
    the envelope of the drawn nonce and the sealed UTF-8 of the plaintext. *)
Lemma encrypt_value_sealed (cfg : settings) (key : bytes) (ks : list bytes)
    (plaintext token : text) (e e' : entropy) :
  keys cfg = Ok (key :: ks) ->
  encrypt_value cfg plaintext e = (Ok token, e') ->
  aes_key_size key = true /\
  Utf8.encode plaintext = Ok (utf8_bytes plaintext) /\
  token = token_text (next_nonce e ++
                      gcm_seal key (next_nonce e) (utf8_bytes plaintext)).
Proof.
  intros Hk. unfold encrypt_value, bind, lift, os_urandom, next_nonce.
  rewrite Hk. cbn [getitem nth_error]. unfold AESGCM.
  destruct (aes_key_size key); [| discriminate].
  destruct (urandom 12 e) as [nonce e1]. cbn [fst].
  destruct (Utf8.encode plaintext) as [data |] eqn:Ed; [| discriminate].
  unfold AESGCM_encrypt. destruct (gcm_nonce_size nonce); [| discriminate].
  rewrite token_text_decode. intros [= <- <-].
  rewrite (utf8_bytes_ok _ _ Ed). auto.
Qed.

Context {laws : CryptoLaws crypto}.

Lemma round_trip_run (cfg : settings) (plaintext : text) (e : entropy) :
  well_configured cfg -> Utf8.well_formed plaintext ->
  exists token e',
    encrypt_value cfg plaintext e = (Ok token, e') /\
    decrypt_value cfg token = Ok plaintext.
Proof.
  intros Hcfg Hp.
  destruct (well_configured_keys cfg Hcfg) as (key & ks & Hk & Hsize).
  pose proof (utf8_encode_bytes plaintext Hp) as Hdata.
  eexists. eexists. split.
  - apply (encrypt_value_run cfg key ks plaintext _ e Hk Hsize Hdata).
  - rewrite decrypt_value_token, Hk. cbn [rbind].
    destruct (open_sealed key (utf8_bytes plaintext) e Hsize) as [Hopen Hn].
    apply (decrypt_loop_head _ _ _ _ _ _ Hsize Hn Hopen).
    apply utf8_decode_encode. exact Hdata.
Qed.

(** ** The envelope codec *)

(** C1. For every well-formed text [p], the empty text included, and
    whatever nonce is drawn, [encrypt_value] returns a token and
    [decrypt_value] under the same settings returns [p] from it. *)
Theorem encrypt_decrypt_round_trip (cfg : settings) (p : text) (e : entropy) :
  well_configured cfg -> Utf8.well_formed p ->
  exists token e',
    encrypt_value cfg p e = (Ok token, e') /\
    decrypt_value cfg token = Ok p.
Proof. apply round_trip_run. Qed.

(** C2. A token made under settings whose first key is [key] decrypts to
    its plaintext under any settings whose key list contains [key], at
    whatever position, provided no other key of that list authenticates
    the sealed message. *)
Theorem key_rotation (cfg cfg' : settings) (p token : text) (e e' : entropy)
    (key : bytes) (ks ks' : list bytes) :
  keys cfg = Ok (key :: ks) ->
  encrypt_value cfg p e = (Ok token, e') ->
  keys cfg' = Ok ks' -> In key ks' ->
  (forall key', In key' ks' -> key' <> key ->
     gcm_open key' (next_nonce e)
       (gcm_seal key (next_nonce e) (utf8_bytes p)) = None) ->
  decrypt_value cfg' token = Ok p.
Proof.
  intros Hk Henc Hk' Hin Hrej.
  destruct (encrypt_value_sealed cfg key ks p token e e' Hk Henc)
    as (Hsize & Hdata & ->).
  rewrite decrypt_value_token, Hk'. cbn [rbind].
  destruct (open_sealed key (utf8_bytes p) e Hsize) as [Hopen Hn].
  destruct (split_envelope (next_nonce e)
              (gcm_seal key (next_nonce e) (utf8_bytes p))
              (next_nonce_length e)) as [En Ec].
  rewrite En, Ec in *.
  apply (decrypt_loop_found ks' key _ _ (utf8_bytes p) p
           (keys_sizes cfg' ks' Hk') Hin Hrej Hn Hopen).
  apply utf8_decode_encode. exact Hdata.
Qed.

Lemma decrypt_value_exhausted (cfg : settings) (s : text)
    (encrypted : bytes) (ks : list bytes) :
  envelope_of s = Ok encrypted -> keys cfg = Ok ks ->
  (forall key, In key ks ->
     gcm_open key (firstn 12 encrypted) (skipn 12 encrypted) = None) ->
  decrypt_value cfg s =
  Raise (ValueError "Decryption failed with all provided keys.").
Proof.
  intros Henv Hk Hrej. rewrite (decrypt_value_envelope cfg s encrypted Henv), Hk.
  cbn [rbind]. apply decrypt_loop_exhausted; [| exact Hrej].
  apply (keys_sizes cfg ks Hk).
Qed.

(** C3, as the code has it. An input whose URL-safe base64 decoding
    fails comes back unchanged. An input that decodes to fewer than 12
    bytes is not passed through: its ciphertext part is empty, no key
    opens it, and [decrypt_value] raises. *)
Theorem decrypt_value_undecodable (cfg : settings) (s : text) :
  (forall x, envelope_of s = Raise x -> decrypt_value cfg s = Ok s) /\
  (forall encrypted ks,
     envelope_of s = Ok encrypted -> (length encrypted < 12)%nat ->
     keys cfg = Ok ks ->
     decrypt_value cfg s =
     Raise (ValueError "Decryption failed with all provided keys.")).
Proof.
  split.
  - intros x. apply decrypt_value_passthrough.
  - intros encrypted ks Henv Hlen Hk.
    apply (decrypt_value_exhausted cfg s encrypted ks Henv Hk).
    intros key _. apply gcm_open_short.
    rewrite length_skipn. lia.
Qed.

(** C4, as the code has it. When the input decodes to at least 12 bytes
    and no key authenticates the ciphertext, [decrypt_value] raises
    [ValueError] with the message "Decryption failed with all provided
    keys."; the input is not returned. *)
Theorem decrypt_value_all_keys_fail (cfg : settings) (s : text)
    (encrypted : bytes) (ks : list bytes) :
  envelope_of s = Ok encrypted -> (12 <= length encrypted)%nat ->
  keys cfg = Ok ks ->
  (forall key, In key ks ->
     gcm_open key (firstn 12 encrypted) (skipn 12 encrypted) = None) ->
  decrypt_value cfg s =
  Raise (ValueError "Decryption failed with all provided keys.").
Proof.
  intros Henv _ Hk Hrej. exact (decrypt_value_exhausted cfg s encrypted ks Henv Hk Hrej).
Qed.

(** C9. Two calls of [encrypt_value] on the same plaintext that draw
    different nonces return different tokens. *)
Theorem distinct_nonces_distinct_tokens (cfg : settings) (p t1 t2 : text)
    (e1 e2 e1' e2' : entropy) :
  next_nonce e1 <> next_nonce e2 ->
  encrypt_value cfg p e1 = (Ok t1, e1') ->
  encrypt_value cfg p e2 = (Ok t2, e2') ->
  t1 <> t2.
Proof.
  intros Hne H1 H2 Heq.
  destruct (encrypt_value_inv cfg p t1 e1 e1' H1) as [c1 ->].
  destruct (encrypt_value_inv cfg p t2 e2 e2' H2) as [c2 ->].
  apply token_text_inj in Heq. apply Hne.
  destruct (split_envelope (next_nonce e1) c1 (next_nonce_length e1)) as [<- _].
  destruct (split_envelope (next_nonce e2) c2 (next_nonce_length e2)) as [<- _].
  rewrite Heq. reflexivity.
Qed.

End CodecProperties.

Section KeyMaterial.

Context {crypto : Crypto}.

Lemma secret_keys_length (cfg : settings) :
  (1 <= length (secret_keys cfg))%nat.
Proof. unfold secret_keys. cbn [app length]. lia. Qed.

(** C8, as the code has it. Key derivation checks neither set for
    emptiness. The secret list always holds the primary secret; with an
    empty salt list derivation returns an empty key list, and
    [encrypt_value] then raises [IndexError] when it selects the key. *)
Theorem empty_salt_set (cfg : settings) :
  salt_keys cfg = [] ->
  secret_keys cfg <> [] /\
  keys cfg = Ok [] /\
  forall p e,
    encrypt_value cfg p e = (Raise (IndexError "list index out of range"), e).
Proof.
  intros Hs.
  assert (Hk : keys cfg = Ok []).
  { unfold keys. rewrite Hs. cbn [for_each].
    induction (secret_keys cfg) as [| s l IH]; cbn [for_each]; auto. }
  split; [| split].
  - unfold secret_keys. discriminate.
  - exact Hk.
  - intros p e. unfold encrypt_value, bind, lift. rewrite Hk. reflexivity.
Qed.

Context {laws : CryptoLaws crypto}.

(** C5. With [m] secrets and [n] salts, all well-formed text, the key
    list has [m * n] keys of 32 bytes; the key at index [i * n + j] is
    derived from secret [i] and salt [j]; and the key at index 0 is the
    one every call of [encrypt_value] seals with. *)
Theorem key_material_layout (cfg : settings) :
  Forall Utf8.well_formed (secret_keys cfg) ->
  Forall Utf8.well_formed (salt_keys cfg) ->
  let m := length (secret_keys cfg) in
  let n := length (salt_keys cfg) in
  exists ks,
    keys cfg = Ok ks /\
    (1 <= m)%nat /\
    length ks = (m * n)%nat /\
    Forall (fun key => length key = 32%nat) ks /\
    (forall i j secret_key salt_key,
       nth_error (secret_keys cfg) i = Some secret_key ->
       nth_error (salt_keys cfg) j = Some salt_key ->
       nth_error ks (i * n + j) = Some (key_of secret_key salt_key)) /\
    (forall key p data e,
       nth_error ks 0 = Some key -> Utf8.encode p = Ok data ->
       encrypt_value cfg p e =
       (Ok (token_text (next_nonce e ++ gcm_seal key (next_nonce e) data)),
        snd (urandom 12 e))).
Proof.
  intros Hsec Hsalt m n. exists (key_table cfg).
  pose proof (keys_total cfg Hsec Hsalt) as Hk.
  repeat split.
  - exact Hk.
  - apply secret_keys_length.
  - apply key_table_length.
  - apply key_table_sizes.
  - intros i j secret_key salt_key. apply key_table_nth.
  - intros key p data e H0 Hdata.
    destruct (key_table cfg) as [| k ks] eqn:Et; [discriminate |].
    cbn [nth_error] in H0. injection H0 as ->.
    apply (encrypt_value_run cfg key ks p data e Hk); [| exact Hdata].
    exact (Forall_inv (keys_sizes cfg _ Hk)).
Qed.

End KeyMaterial.

Section FieldInterface.

Context {crypto : Crypto} {builtins : Builtins} {base : FieldBase}.

(** C10, as the code has it. [get_prep_value] tests the truth value
    of what the parent class's [get_prep_value] hands back, not of its
    own argument. When that is falsy the result is [None] and no entropy
    is drawn, so [encrypt_value] was not called; when it is truthy the
    result is the token of its text. *)
Theorem get_prep_value_falsy (cfg : settings) (value prepared : pyvalue)
    (e : entropy) :
  super_get_prep_value value = Ok prepared ->
  (py_bool prepared = false -> get_prep_value cfg value e = (Ok PNone, e)) /\
  (py_bool prepared = true ->
   get_prep_value cfg value e =
   (token <- encrypt_value cfg
               match prepared with
               | PStr s => s
               | _ => py_str prepared
               end ;;
    ret (PStr token))%M e).
Proof.
  intros Hsuper.
  assert (E : get_prep_value cfg value e =
              (if py_bool prepared
               then (token <- encrypt_value cfg
                                match prepared with
                                | PStr s => s
                                | _ => py_str prepared
                                end ;;
                     ret (PStr token))%M
               else ret PNone) e).
  { unfold get_prep_value. unfold bind at 1. unfold lift.
    rewrite Hsuper. reflexivity. }
  rewrite E. split; intros ->; reflexivity.
Qed.

End FieldInterface.

(** ** The structured walk *)

Section StructuredValues.

Context {crypto : Crypto} {builtins : Builtins}.

Lemma _encrypt_values_list (cfg : settings) (l : list pyvalue) :
  _encrypt_values cfg (PList l) =
  (l' <- encrypt_list cfg l ;; ret (PList l'))%M.
Proof. reflexivity. Qed.

Lemma _encrypt_values_dict (cfg : settings) (items : list (text * pyvalue)) :
  _encrypt_values cfg (PDict items) =
  (items' <- encrypt_items cfg items ;; ret (PDict items'))%M.
Proof. reflexivity. Qed.

Lemma _encrypt_values_leaf (cfg : settings) (value : pyvalue) :
  is_leaf value = true ->
  _encrypt_values cfg value =
  (token <- encrypt_value cfg (py_str value) ;; ret (PStr token))%M.
Proof. destruct value; (discriminate || reflexivity). Qed.

Lemma stringify_leaf (value : pyvalue) :
  is_leaf value = true -> stringify value = PStr (py_str value).
Proof. destruct value; (discriminate || reflexivity). Qed.

Lemma leaf_text_well_formed (value : pyvalue) :
  is_leaf value = true -> encodable value -> Utf8.well_formed (py_str value).
Proof.
  destruct value as [| [|] | n | s | o t | l | items];
    cbn [is_leaf encodable py_str];
    intros Hl He; try discriminate; try apply str_of_well_formed; exact He.
Qed.

Lemma shape_of_stringify (value : pyvalue) :
  shape_of (stringify value) = shape_of value.
Proof.
  induction value as [| b | n | s | o t | l IH | items IH] using pyvalue_ind;
    try reflexivity.
  - cbn [stringify shape_of]. f_equal.
    induction IH as [| data rest Hd _ IHrest]; cbn [map]; [reflexivity |].
    rewrite Hd, IHrest. reflexivity.
  - cbn [stringify shape_of]. f_equal.
    induction IH as [| [key data] rest Hd _ IHrest]; cbn [map fst snd];
      [reflexivity |].
    cbn [snd] in Hd. rewrite Hd, IHrest. reflexivity.
Qed.

(** The null leaf goes through [str] and the codec in the encrypt walk. *)
Lemma _encrypt_values_none (cfg : settings) :
  _encrypt_values cfg PNone =
  (token <- encrypt_value cfg (str_of "None") ;; ret (PStr token))%M.
Proof. reflexivity. Qed.

(** C7, where the code departs from it. The decrypt walk hands [None]
    back untouched, at every position. The encrypt walk has no case for
    [None]: it takes [str(None)], the text "None", and encrypts it, so its
    result is a token or an exception, never [None]. *)
Theorem encrypt_walk_null (cfg : settings) (e : entropy) :
  _decrypt_values cfg PNone = PNone /\
  _encrypt_values cfg PNone e =
    (token <- encrypt_value cfg (str_of "None") ;; ret (PStr token))%M e /\
  fst (_encrypt_values cfg PNone e) <> Ok PNone.
Proof.
  split; [reflexivity | split; [reflexivity |]].
  rewrite _encrypt_values_none. unfold bind, ret.
  destruct (encrypt_value cfg (str_of "None") e) as [[token | x] e'];
    cbn [fst]; discriminate.
Qed.

Context {laws : CryptoLaws crypto}.

Lemma encrypt_leaf (cfg : settings) (value : pyvalue) (e : entropy) :
  well_configured cfg -> is_leaf value = true -> encodable value ->
  exists value' e',
    _encrypt_values cfg value e = (Ok value', e') /\
    shape_of value' = shape_of value /\
    _decrypt_values cfg value' = stringify value.
Proof.
  intros Hcfg Hleaf Henc.
  pose proof (leaf_text_well_formed value Hleaf Henc) as Hwf.
  destruct (round_trip_run cfg (py_str value) e Hcfg Hwf)
    as (token & e' & Hrun & Hback).
  exists (PStr token), e'. repeat split.
  - rewrite (_encrypt_values_leaf cfg value Hleaf). unfold bind.
    rewrite Hrun. reflexivity.
  - destruct value; (discriminate || reflexivity).
  - cbn [_decrypt_values py_str]. rewrite Hback.
    symmetry. apply stringify_leaf. exact Hleaf.
Qed.

Lemma walk_round_trip (cfg : settings) (value : pyvalue) :
  well_configured cfg -> encodable value ->
  forall e, exists value' e',
    _encrypt_values cfg value e = (Ok value', e') /\
    shape_of value' = shape_of value /\
    _decrypt_values cfg value' = stringify value.
Proof.
  intros Hcfg.
  induction value as [| b | n | s | o t | l IH | items IH] using pyvalue_ind;
    intros Henc e;
    try (apply encrypt_leaf; [exact Hcfg | reflexivity | exact Henc]).
  - assert (Hwalk : forall e, exists l' e',
              encrypt_list cfg l e = (Ok l', e') /\
              map shape_of l' = map shape_of l /\
              map (_decrypt_values cfg) l' = map stringify l).
    { clear e. induction IH as [| data rest Hd _ IHrest]; intros e.
      - exists [], e. repeat split.
      - destruct Henc as [Hdata Hrest].
        destruct (Hd Hdata e) as (data' & e1 & Hrun1 & Hs1 & Hb1).
        destruct (IHrest Hrest e1) as (rest' & e2 & Hrun2 & Hs2 & Hb2).
        exists (data' :: rest'), e2. repeat split.
        + cbn [encrypt_list]. unfold bind. rewrite Hrun1, Hrun2. reflexivity.
        + cbn [map]. rewrite Hs1, Hs2. reflexivity.
        + cbn [map]. rewrite Hb1, Hb2. reflexivity. }
    destruct (Hwalk e) as (l' & e' & Hrun & Hs & Hb).
    exists (PList l'), e'. repeat split.
    + rewrite _encrypt_values_list. unfold bind. rewrite Hrun. reflexivity.
    + cbn [shape_of]. rewrite Hs. reflexivity.
    + cbn [_decrypt_values stringify]. rewrite Hb. reflexivity.
  - assert (Hwalk : forall e, exists items' e',
              encrypt_items cfg items e = (Ok items', e') /\
              map (fun item => (fst item, shape_of (snd item))) items' =
              map (fun item => (fst item, shape_of (snd item))) items /\
              map (fun item => (fst item, _decrypt_values cfg (snd item))) items' =
              map (fun item => (fst item, stringify (snd item))) items).
    { clear e. induction IH as [| [key data] rest Hd _ IHrest]; intros e.
      - exists [], e. repeat split.
      - destruct Henc as [Hdata Hrest]. cbn [snd] in Hd.
        destruct (Hd Hdata e) as (data' & e1 & Hrun1 & Hs1 & Hb1).
        destruct (IHrest Hrest e1) as (rest' & e2 & Hrun2 & Hs2 & Hb2).
        exists ((key, data') :: rest'), e2. repeat split.
        + cbn [encrypt_items]. unfold bind. rewrite Hrun1, Hrun2. reflexivity.
        + cbn [map fst snd]. rewrite Hs1, Hs2. reflexivity.
        + cbn [map fst snd]. rewrite Hb1, Hb2. reflexivity. }
    destruct (Hwalk e) as (items' & e' & Hrun & Hs & Hb).
    exists (PDict items'), e'. repeat split.
    + rewrite _encrypt_values_dict. unfold bind. rewrite Hrun. reflexivity.
    + cbn [shape_of]. rewrite Hs. reflexivity.
    + cbn [_decrypt_values stringify]. rewrite Hb. reflexivity.
Qed.

(** C6. For every document whose string leaves are well-formed text,
    the encrypt walk returns a document of the same shape, and the
    decrypt walk turns that into the original document with every leaf
    replaced by its text: same keys in the same order, same nesting, same
    element counts. *)
Theorem structural_fidelity (cfg : settings) (doc : pyvalue) (e : entropy) :
  well_configured cfg -> encodable doc ->
  exists doc' e',
    _encrypt_values cfg doc e = (Ok doc', e') /\
    shape_of doc' = shape_of doc /\
    _decrypt_values cfg doc' = stringify doc /\
    shape_of (stringify doc) = shape_of doc.
Proof.
  intros Hcfg Henc.
  destruct (walk_round_trip cfg doc Hcfg Henc e) as (doc' & e' & Hrun & Hs & Hb).
  exists doc', e'. repeat split; try assumption. apply shape_of_stringify.
Qed.

End StructuredValues.

(** * Properties of the remaining code *)

(** ** The shape of a token *)

Lemma b2a_base64_length (s : bytes) :
  length (Base64.b2a_base64 s) = (4 * ((length s + 2) / 3))%nat.
Proof.
  induction s as [| b0 | b0 b1 | b0 b1 b2 s IH] using list_ind3;
    try reflexivity.
  cbn [Base64.b2a_base64 length]. rewrite IH.
  replace (S (S (S (length s))) + 2)%nat with (1 * 3 + (length s + 2))%nat by lia.
  rewrite Nat.div_add_l by lia. lia.
Qed.

Lemma token_text_length (encrypted : bytes) :
  length (token_text encrypted) = (4 * ((length encrypted + 2) / 3))%nat.
Proof.
  unfold token_text, Base64.urlsafe_b64encode.
  rewrite !length_map. apply b2a_base64_length.
Qed.

Lemma b2a_urlsafe_char (i : Z) :
  urlsafe_char (b2z (Base64.urlsafe_encode_byte (Base64.b2a i))) = true.
Proof.
  unfold Base64.b2a.
  destruct (nth_in_or_default (Z.to_nat i) Base64.table_b2a_base64
              Base64.BASE64_PAD) as [Hin | ->]; [| reflexivity].
  revert Hin.
  generalize (nth (Z.to_nat i) Base64.table_b2a_base64 Base64.BASE64_PAD).
  intros c.
  apply (proj1 (forallb_forall
    (fun c => urlsafe_char (b2z (Base64.urlsafe_encode_byte c)))
    Base64.table_b2a_base64)).
  vm_compute. reflexivity.
Qed.

Lemma token_text_chars (encrypted : bytes) :
  forallb urlsafe_char (token_text encrypted) = true.
Proof.
  unfold token_text, Base64.urlsafe_b64encode.
  induction encrypted as [| b0 | b0 b1 | b0 b1 b2 s IH] using list_ind3;
    cbn [Base64.b2a_base64 map forallb]; rewrite ?b2a_urlsafe_char, ?IH;
    reflexivity.
Qed.

Section TokenShape.

Context {crypto : Crypto}.

(** X1. A token that [encrypt_value] returns is made of the characters
    of the URL-safe base64 alphabet and the pad only; its length is a
    multiple of four and at least sixteen. *)
Theorem token_shape (cfg : settings) (p token : text) (e e' : entropy) :
  encrypt_value cfg p e = (Ok token, e') ->
  forallb urlsafe_char token = true /\
  (exists n, length token = (4 * n)%nat) /\
  (16 <= length token)%nat.
Proof.
  intros H. destruct (encrypt_value_inv cfg p token e e' H) as [c ->].
  split; [apply token_text_chars |].
  rewrite token_text_length, length_app, next_nonce_length.
  split; [eauto |].
  assert (4 <= (12 + length c + 2) / 3)%nat.
  { apply Nat.div_le_lower_bound; lia. }
  lia.
Qed.

End TokenShape.

Section DecryptOutcome.

Context {crypto : Crypto}.

(** Whatever the loop returns was opened by one of the keys. *)
Lemma decrypt_loop_sound (ks : list bytes) (nonce ciphertext : bytes)
    (p : text) :
  decrypt_loop ks nonce ciphertext = Ok p ->
  exists key data,
    In key ks /\ gcm_open key nonce ciphertext = Some data /\
    Utf8.decode data = Ok p.
Proof.
  induction ks as [| key ks IH]; cbn [decrypt_loop]; [discriminate |].
  destruct (AESGCM key) as [aesgcm |] eqn:Ea; [| discriminate].
  cbn [rbind].
  assert (aesgcm = key) as ->.
  { unfold AESGCM in Ea. destruct (aes_key_size key); congruence. }
  unfold AESGCM_decrypt.
  destruct (gcm_nonce_size nonce).
  - destruct (gcm_open key nonce ciphertext) as [data |] eqn:Eo; cbn [rbind].
    + destruct (Utf8.decode data) as [s |] eqn:Ed.
      * intros [= <-]. exists key, data. cbn [In]. auto.
      * intros H. destruct (IH H) as (k & d & Hin & Ho & Hd).
        exists k, d. cbn [In]. auto.
    + intros H. destruct (IH H) as (k & d & Hin & Ho & Hd).
      exists k, d. cbn [In]. auto.
  - cbn [rbind]. intros H. destruct (IH H) as (k & d & Hin & Ho & Hd).
    exists k, d. cbn [In]. auto.
Qed.

(** X2. [decrypt_value] makes nothing up: what it returns is either its
    argument, when the argument did not decode as an envelope, or the
    UTF-8 text that one of the configured keys opens the envelope to. *)
Theorem decrypt_value_sound (cfg : settings) (s p : text) :
  decrypt_value cfg s = Ok p ->
  (exists x, envelope_of s = Raise x /\ p = s) \/
  (exists encrypted ks key data,
     envelope_of s = Ok encrypted /\ keys cfg = Ok ks /\ In key ks /\
     gcm_open key (firstn 12 encrypted) (skipn 12 encrypted) = Some data /\
     Utf8.decode data = Ok p).
Proof.
  destruct (envelope_of s) as [encrypted | x] eqn:Eenv.
  - rewrite (decrypt_value_envelope cfg s encrypted Eenv).
    destruct (keys cfg) as [ks |] eqn:Ek; cbn [rbind]; [| discriminate].
    intros H. right.
    destruct (decrypt_loop_sound _ _ _ _ H) as (key & data & Hin & Ho & Hd).
    exists encrypted, ks, key, data. auto.
  - rewrite (decrypt_value_passthrough cfg s x Eenv). intros [= <-].
    left. eauto.
Qed.

Lemma decrypt_loop_first (before after : list bytes)
    (key nonce ciphertext data : bytes) (p : text) :
  Forall (fun key => aes_key_size key = true) (before ++ key :: after) ->
  gcm_nonce_size nonce = true ->
  Forall (fun key' => passed_over key' nonce ciphertext) before ->
  gcm_open key nonce ciphertext = Some data -> Utf8.decode data = Ok p ->
  decrypt_loop (before ++ key :: after) nonce ciphertext = Ok p.
Proof.
  intros Hsizes Hn Hbefore Hopen Hdec.
  induction Hbefore as [| k before Hk _ IH]; cbn [app] in *.
  - apply (decrypt_loop_head key after nonce ciphertext data p
             (Forall_inv Hsizes) Hn Hopen Hdec).
  - cbn [decrypt_loop]. unfold AESGCM. rewrite (Forall_inv Hsizes).
    cbn [rbind]. unfold AESGCM_decrypt. rewrite Hn.
    destruct Hk as [-> | (d & -> & Hd)]; cbn [rbind]; rewrite ?Hd;
      apply IH; exact (Forall_inv_tail Hsizes).
Qed.

Context {laws : CryptoLaws crypto}.

(** X3. The keys are tried in order, and a key is passed over also when
    it authenticates the ciphertext to bytes that are not UTF-8: the
    result is the text of the first key that opens the ciphertext to
    valid UTF-8, whatever the keys after it would do. *)
Theorem decrypt_value_first_key (cfg : settings) (s p : text)
    (encrypted : bytes) (before after : list bytes) (key data : bytes) :
  envelope_of s = Ok encrypted -> (12 <= length encrypted)%nat ->
  keys cfg = Ok (before ++ key :: after) ->
  Forall (fun key' =>
            passed_over key' (firstn 12 encrypted) (skipn 12 encrypted))
         before ->
  gcm_open key (firstn 12 encrypted) (skipn 12 encrypted) = Some data ->
  Utf8.decode data = Ok p ->
  decrypt_value cfg s = Ok p.
Proof.
  intros Henv Hlen Hk Hbefore Hopen Hdec.
  rewrite (decrypt_value_envelope cfg s encrypted Henv), Hk. cbn [rbind].
  apply (decrypt_loop_first before after key _ _ data p); try assumption.
  - apply (keys_sizes cfg _ Hk).
  - unfold gcm_nonce_size. rewrite length_firstn.
    replace (Nat.min 12 (length encrypted)) with 12%nat by lia. reflexivity.
Qed.

End DecryptOutcome.

(** ** Characters the decoder skips *)

Lemma a2b_loop_skip (b : byte) (rest : bytes) (quad_pos : nat)
    (leftchar pads : Z) (out : bytes) :
  skipped_byte b = true ->
  Base64.a2b_loop (Base64.urlsafe_decode_byte b :: rest) quad_pos leftchar pads out =
  Base64.a2b_loop rest quad_pos leftchar pads out.
Proof.
  unfold skipped_byte. intros H. apply andb_prop in H. destruct H as [Hpad Ha].
  apply negb_true_iff in Hpad. cbn [Base64.a2b_loop]. rewrite Hpad.
  destruct (Base64.a2b (Base64.urlsafe_decode_byte b)); [discriminate |].
  reflexivity.
Qed.

Lemma a2b_loop_skip_all (junk rest : bytes) :
  forallb skipped_byte junk = true ->
  forall quad_pos leftchar pads out,
  Base64.a2b_loop (map Base64.urlsafe_decode_byte junk ++ rest)
    quad_pos leftchar pads out =
  Base64.a2b_loop rest quad_pos leftchar pads out.
Proof.
  induction junk as [| b junk IH]; cbn [forallb map app]; [reflexivity |].
  intros H quad_pos leftchar pads out. apply andb_prop in H.
  destruct H as [Hb Hjunk]. rewrite (a2b_loop_skip b _ _ _ _ _ Hb).
  apply IH. exact Hjunk.
Qed.

(** Skipped bytes may stand anywhere in the input. *)
Lemma a2b_loop_insert (before junk after : bytes) :
  forallb skipped_byte junk = true ->
  forall quad_pos leftchar pads out,
  Base64.a2b_loop
    (before ++ map Base64.urlsafe_decode_byte junk ++ after)
    quad_pos leftchar pads out =
  Base64.a2b_loop (before ++ after) quad_pos leftchar pads out.
Proof.
  intros Hjunk. induction before as [| c before IH];
    intros quad_pos leftchar pads out; cbn [app].
  - apply a2b_loop_skip_all. exact Hjunk.
  - cbn [Base64.a2b_loop].
    destruct (Byte.eqb c Base64.BASE64_PAD);
      [| destruct (Base64.a2b c)];
      destruct quad_pos as [| [| [| quad_pos]]]; cbn [Nat.leb];
      try destruct (4 <=? _); rewrite ?IH; reflexivity.
Qed.

Lemma utf8_encode_app (s1 s2 : text) :
  Utf8.encode (s1 ++ s2) =
  (b1 <- Utf8.encode s1 ;; b2 <- Utf8.encode s2 ;; Ok (b1 ++ b2))%res.
Proof.
  induction s1 as [| c s1 IH]; cbn [app Utf8.encode rbind].
  - destruct (Utf8.encode s2); reflexivity.
  - destruct (Utf8.encode_char c) as [bs |]; [| reflexivity].
    rewrite IH. destruct (Utf8.encode s1) as [b1 |]; cbn [rbind]; [| reflexivity].
    destruct (Utf8.encode s2) as [b2 |]; cbn [rbind]; [| reflexivity].
    rewrite app_assoc. reflexivity.
Qed.

Lemma envelope_of_insert (s1 s2 : text) (c : Z) :
  skipped_char c = true ->
  envelope_of (s1 ++ c :: s2) = envelope_of (s1 ++ s2).
Proof.
  unfold skipped_char, envelope_of. intros Hc.
  destruct (Utf8.encode_char c) as [bs |] eqn:Ec; [| discriminate].
  rewrite !utf8_encode_app.
  destruct (Utf8.encode s1) as [b1 |]; cbn [rbind]; [| reflexivity].
  cbn [Utf8.encode]. rewrite Ec.
  destruct (Utf8.encode s2) as [b2 |]; cbn [rbind]; [| reflexivity].
  unfold Base64.urlsafe_b64decode, Base64.a2b_base64.
  rewrite !map_app. apply a2b_loop_insert. exact Hc.
Qed.

Lemma skipped_high_byte (z : Z) :
  0x80 <= z < 0x100 -> skipped_byte (z2b z) = true.
Proof.
  intros Hz.
  assert (H : high_byte_skipped (z2b z) = true).
  { revert z Hz. intros z _. generalize (z2b z).
    apply forall_byte. vm_compute. reflexivity. }
  unfold high_byte_skipped in H. rewrite b2z_z2b in H by lia.
  destruct (Z.ltb_spec z 128); [lia | exact H].
Qed.

(** Every character outside ASCII is skipped. *)
Lemma non_ascii_skipped (c : Z) :
  Utf8.scalar_value c -> 0x80 <= c -> skipped_char c = true.
Proof.
  intros [Hr Hs] Hc. unfold skipped_char, Utf8.encode_char.
  destruct (Z.ltb_spec c 0); [lia |].
  destruct (Z.ltb_spec c 0x80); [lia |].
  destruct (Z.ltb_spec c 0x800).
  { cbn [forallb]. rewrite !skipped_high_byte by zrange. reflexivity. }
  destruct (Z.ltb_spec c 0x10000).
  { destruct (Z.leb_spec 0xD800 c); destruct (Z.leb_spec c 0xDFFF);
      cbn [andb]; try lia;
      cbn [forallb]; rewrite !skipped_high_byte by zrange; reflexivity. }
  destruct (Z.ltb_spec c 0x110000); [| lia].
  cbn [forallb]. rewrite !skipped_high_byte by zrange. reflexivity.
Qed.

Section Leniency.

Context {crypto : Crypto}.

(** X4. The base64 decoding is lenient. A character the decoder skips
    (a line break, a blank, any character outside ASCII) inserted anywhere
    into a string that decodes as an envelope does not change what
    [decrypt_value] returns for it; inserted into a string that does not
    decode, it leaves it passed through. *)
Theorem decrypt_value_skips (cfg : settings) (s1 s2 : text) (c : Z) :
  skipped_char c = true ->
  (forall encrypted, envelope_of (s1 ++ s2) = Ok encrypted ->
     decrypt_value cfg (s1 ++ c :: s2) = decrypt_value cfg (s1 ++ s2)) /\
  (forall x, envelope_of (s1 ++ s2) = Raise x ->
     decrypt_value cfg (s1 ++ c :: s2) = Ok (s1 ++ c :: s2)).
Proof.
  intros Hc. split.
  - intros encrypted Henv.
    rewrite (decrypt_value_envelope cfg (s1 ++ s2) encrypted Henv).
    apply decrypt_value_envelope. rewrite envelope_of_insert; assumption.
  - intros x Henv. apply (decrypt_value_passthrough cfg _ x).
    rewrite envelope_of_insert; assumption.
Qed.

End Leniency.

(** ** What fails to encode *)

Lemma utf8_encode_char_scalar (c : Z) (bs : bytes) :
  Utf8.encode_char c = Some bs -> Utf8.scalar_value c.
Proof.
  unfold Utf8.encode_char, Utf8.scalar_value.
  destruct (Z.ltb_spec c 0); [discriminate |].
  destruct (Z.ltb_spec c 0x80); [lia |].
  destruct (Z.ltb_spec c 0x800); [lia |].
  destruct (Z.ltb_spec c 0x10000).
  - destruct (Z.leb_spec 0xD800 c); destruct (Z.leb_spec c 0xDFFF);
      cbn [andb]; try discriminate; lia.
  - destruct (Z.ltb_spec c 0x110000); [lia | discriminate].
Qed.

Lemma utf8_encode_well_formed (s : text) (bs : bytes) :
  Utf8.encode s = Ok bs -> Utf8.well_formed s.
Proof.
  revert bs. induction s as [| c s IH]; intros bs; cbn [Utf8.encode].
  - intros _. constructor.
  - destruct (Utf8.encode_char c) as [cs |] eqn:Ec; [| discriminate].
    destruct (Utf8.encode s) as [rest |]; [| discriminate].
    intros _. constructor.
    + exact (utf8_encode_char_scalar c cs Ec).
    + exact (IH rest eq_refl).
Qed.

Lemma utf8_encode_raises (s : text) (x : exn) :
  Utf8.encode s = Raise x -> x = UnicodeEncodeError.
Proof.
  induction s as [| c s IH]; cbn [Utf8.encode]; [discriminate |].
  destruct (Utf8.encode_char c); [| congruence].
  destruct (Utf8.encode s); [discriminate |].
  intros [= <-]. apply IH. reflexivity.
Qed.

(** A text encodes, or it is not well-formed and encoding raises. *)
Lemma utf8_encode_cases (s : text) :
  (Utf8.well_formed s /\ Utf8.encode s = Ok (utf8_bytes s)) \/
  (~ Utf8.well_formed s /\ Utf8.encode s = Raise UnicodeEncodeError).
Proof.
  destruct (Utf8.encode s) as [bs | x] eqn:E.
  - left. split; [exact (utf8_encode_well_formed s bs E) |].
    rewrite (utf8_bytes_ok s bs E). reflexivity.
  - right. rewrite (utf8_encode_raises s x E) in *. split; [| reflexivity].
    intros Hwf. rewrite (utf8_encode_bytes s Hwf) in E. discriminate.
Qed.

Section KeyErrors.

Context {crypto : Crypto}.

Lemma keys_inner_inv (secret_key : text) (salts : list text) :
  forall acc,
  match for_each salts (fun salt_key keys =>
      (salt <- Utf8.encode salt_key ;;
       password <- Utf8.encode secret_key ;;
       Ok (keys ++ [pbkdf2_hmac_sha256 password salt 100000 32]))%res) acc with
  | Ok _ => Forall Utf8.well_formed salts /\
            (salts <> [] -> Utf8.well_formed secret_key)
  | Raise x => x = UnicodeEncodeError
  end.
Proof.
  induction salts as [| salt_key salts IH]; intros acc; cbn [for_each].
  - split; [constructor | congruence].
  - unfold rbind at 1.
    destruct (Utf8.encode salt_key) as [salt |] eqn:Es;
      [| exact (utf8_encode_raises _ _ Es)].
    unfold rbind at 1.
    destruct (Utf8.encode secret_key) as [password |] eqn:Ep;
      [| exact (utf8_encode_raises _ _ Ep)].
    specialize (IH (acc ++ [pbkdf2_hmac_sha256 password salt 100000 32])).
    destruct (for_each salts _ _); [| exact IH].
    destruct IH as [Hsalts _]. split.
    + constructor; [exact (utf8_encode_well_formed _ _ Es) | exact Hsalts].
    + intros _. exact (utf8_encode_well_formed _ _ Ep).
Qed.

Lemma keys_outer_inv (salts secrets : list text) :
  forall acc,
  match for_each secrets (fun secret_key keys =>
    for_each salts (fun salt_key keys =>
      (salt <- Utf8.encode salt_key ;;
       password <- Utf8.encode secret_key ;;
       Ok (keys ++ [pbkdf2_hmac_sha256 password salt 100000 32]))%res) keys) acc with
  | Ok _ => (secrets <> [] -> Forall Utf8.well_formed salts) /\
            (salts <> [] -> Forall Utf8.well_formed secrets)
  | Raise x => x = UnicodeEncodeError
  end.
Proof.
  induction secrets as [| secret_key secrets IH]; intros acc; cbn [for_each].
  - split; [congruence | constructor].
  - pose proof (keys_inner_inv secret_key salts acc) as Hin.
    destruct (for_each salts _ acc) as [acc' |]; [| exact Hin].
    specialize (IH acc'). destruct (for_each secrets _ acc'); [| exact IH].
    destruct Hin as [Hsalts Hsec]. destruct IH as [_ Hsecs]. split.
    + intros _. exact Hsalts.
    + intros Hne. constructor; [exact (Hsec Hne) | exact (Hsecs Hne)].
Qed.

Lemma keys_no_salt (cfg : settings) : salt_keys cfg = [] -> keys cfg = Ok [].
Proof.
  intros Hs. unfold keys. rewrite Hs.
  induction (secret_keys cfg) as [| s l IH]; cbn [for_each]; auto.
Qed.

Lemma key_table_no_salt (cfg : settings) :
  salt_keys cfg = [] -> key_table cfg = [].
Proof.
  intros Hs. unfold key_table. rewrite Hs.
  induction (secret_keys cfg) as [| s l IH]; cbn [flat_map map app]; auto.
Qed.

(** X5. With a [SECRET_KEY] that is not empty, and every secret and
    salt a string: key derivation raises [UnicodeEncodeError] if and
    only if there is a salt and some secret or salt is not well-formed
    text. *)
Theorem keys_failure (cfg : settings) :
  SECRET_KEY cfg <> [] ->
  (keys cfg = Raise UnicodeEncodeError <->
   salt_keys cfg <> [] /\ ~ all_well_formed cfg).
Proof.
  intros _.
  pose proof (keys_outer_inv (salt_keys cfg) (secret_keys cfg) []) as Hinv.
  fold (keys cfg) in Hinv.
  split.
  - intros E. split.
    + intros Hs. rewrite (keys_no_salt cfg Hs) in E. discriminate.
    + intros [Hsec Hsalt]. rewrite (keys_total cfg Hsec Hsalt) in E.
      discriminate.
  - intros [Hne Hbad]. destruct (keys cfg) as [ks | x].
    + exfalso. apply Hbad. destruct Hinv as [Hsalts Hsecs]. split.
      * exact (Hsecs Hne).
      * apply Hsalts. unfold secret_keys. discriminate.
    + rewrite Hinv. reflexivity.
Qed.

Lemma keys_rotated (cfg cfg' : settings) (ks : list bytes) :
  SECRET_KEY_FALLBACKS cfg' = Some (secret_keys cfg) ->
  SALT_KEY cfg' = SALT_KEY cfg ->
  Utf8.well_formed (SECRET_KEY cfg') ->
  keys cfg = Ok ks ->
  keys cfg' =
  Ok (map (key_of (SECRET_KEY cfg')) (salt_keys cfg) ++ ks).
Proof.
  intros Hfb Hsalt Hnew Hk.
  assert (Hsalts : salt_keys cfg' = salt_keys cfg)
    by (unfold salt_keys; rewrite Hsalt; reflexivity).
  assert (Hsecs : secret_keys cfg' = SECRET_KEY cfg' :: secret_keys cfg)
    by (unfold secret_keys at 1; rewrite Hfb; reflexivity).
  pose proof (keys_inv cfg ks Hk) as ->.
  pose proof (keys_outer_inv (salt_keys cfg) (secret_keys cfg) []) as Hinv.
  fold (keys cfg) in Hinv. rewrite Hk in Hinv. destruct Hinv as [Hwsalts Hwsecs].
  destruct (salt_keys cfg) as [| salt0 salts] eqn:Es.
  - rewrite (keys_no_salt cfg' Hsalts), (key_table_no_salt cfg Es).
    reflexivity.
  - rewrite <- Es in *.
    assert (Hne : salt_keys cfg <> []) by (rewrite Es; discriminate).
    rewrite (keys_total cfg').
    + unfold key_table. rewrite Hsecs, Hsalts. reflexivity.
    + rewrite Hsecs. constructor; [exact Hnew | exact (Hwsecs Hne)].
    + rewrite Hsalts. apply Hwsalts. unfold secret_keys. discriminate.
Qed.

(** X6. When the settings get a new primary secret and keep the old
    secrets as fallbacks, with the same salts, the new key list is the
    keys of the new secret followed by the old key list, unchanged. *)
Theorem keys_after_rotation (cfg cfg' : settings) (ks : list bytes) :
  SECRET_KEY_FALLBACKS cfg' = Some (secret_keys cfg) ->
  SALT_KEY cfg' = SALT_KEY cfg ->
  Utf8.well_formed (SECRET_KEY cfg') ->
  keys cfg = Ok ks ->
  keys cfg' =
  Ok (map (key_of (SECRET_KEY cfg')) (salt_keys cfg) ++ ks).
Proof. apply keys_rotated. Qed.

Context {laws : CryptoLaws crypto}.

(** X8. Under settings that yield a key, [encrypt_value] returns a
    token exactly for well-formed text; for any other text it raises
    [UnicodeEncodeError]. In both cases it has drawn its twelve bytes of
    entropy. *)
Theorem encrypt_value_outcome (cfg : settings) (p : text) (e : entropy) :
  well_configured cfg ->
  (Utf8.well_formed p /\
   exists token, encrypt_value cfg p e = (Ok token, snd (urandom 12 e))) \/
  (~ Utf8.well_formed p /\
   encrypt_value cfg p e = (Raise UnicodeEncodeError, snd (urandom 12 e))).
Proof.
  intros Hcfg.
  destruct (well_configured_keys cfg Hcfg) as (key & ks & Hk & Hsize).
  destruct (utf8_encode_cases p) as [[Hwf Henc] | [Hbad Henc]].
  - left. split; [exact Hwf |]. eexists.
    apply (encrypt_value_run cfg key ks p _ e Hk Hsize Henc).
  - right. split; [exact Hbad |].
    unfold encrypt_value, bind, lift, os_urandom. rewrite Hk.
    cbn [getitem nth_error]. unfold AESGCM. rewrite Hsize.
    destruct (urandom 12 e) as [nonce e1]. cbn [snd]. rewrite Henc.
    reflexivity.
Qed.

End KeyErrors.

Section Rotation.

Context {crypto : Crypto} {laws : CryptoLaws crypto}.

(** X7. After such a rotation a token made under the old settings
    decrypts to its plaintext under the new ones, provided the keys of
    the new secret, the only keys tried before the old primary key, are
    passed over. *)
Theorem rotation_keeps_tokens_readable (cfg cfg' : settings) (p token : text)
    (e e' : entropy) (key : bytes) (ks : list bytes) :
  SECRET_KEY_FALLBACKS cfg' = Some (secret_keys cfg) ->
  SALT_KEY cfg' = SALT_KEY cfg ->
  Utf8.well_formed (SECRET_KEY cfg') ->
  keys cfg = Ok (key :: ks) ->
  encrypt_value cfg p e = (Ok token, e') ->
  Forall (fun key' =>
            passed_over key' (next_nonce e)
              (gcm_seal key (next_nonce e) (utf8_bytes p)))
         (map (key_of (SECRET_KEY cfg')) (salt_keys cfg)) ->
  decrypt_value cfg' token = Ok p.
Proof.
  intros Hfb Hsalt Hnew Hk Henc Hpass.
  pose proof (keys_rotated cfg cfg' _ Hfb Hsalt Hnew Hk) as Hk'.
  destruct (encrypt_value_sealed cfg key ks p token e e' Hk Henc)
    as (Hsize & Hdata & ->).
  rewrite decrypt_value_token, Hk'. cbn [rbind].
  destruct (open_sealed key (utf8_bytes p) e Hsize) as [Hopen Hn].
  destruct (split_envelope (next_nonce e)
              (gcm_seal key (next_nonce e) (utf8_bytes p))
              (next_nonce_length e)) as [En Ec].
  rewrite En, Ec in *.
  apply (decrypt_loop_first _ ks key _ _ (utf8_bytes p) p).
  - apply (keys_sizes cfg' _ Hk').
  - exact Hn.
  - exact Hpass.
  - exact Hopen.
  - apply utf8_decode_encode. exact Hdata.
Qed.

End Rotation.

Section FieldReadWrite.

Context {crypto : Crypto} {builtins : Builtins}
        {base : FieldBase} {parent : ParentField}.


Context {laws : CryptoLaws crypto}.

(** X9. When the parent's [get_prep_value] makes of the value written
    a truthy value whose text is well formed, [get_db_prep_value] stores
    a token, and [from_db_value] hands the parent's [to_python] the text
    of what the parent prepared: that string itself, or [str] of
    anything else. It is the text of the value written only where the
    parent's [get_prep_value] returns its argument. *)
Theorem field_round_trip (cfg : settings) (value prepared : pyvalue)
    (e : entropy) :
  well_configured cfg ->
  super_get_prep_value value = Ok prepared -> py_bool prepared = true ->
  let plain := match prepared with
               | PStr s => s
               | _ => py_str prepared
               end in
  Utf8.well_formed plain ->
  exists token e',
    get_db_prep_value (get_prep_value cfg) value false e =
      (Ok (PStr token), e') /\
    from_db_value (to_python false cfg) (PStr token) =
      super_to_python (PStr plain).
Proof.
  intros Hcfg Hsuper Htruthy plain Hwf.
  destruct (round_trip_run cfg plain e Hcfg Hwf) as (token & e' & Hrun & Hback).
  exists token, e'. split.
  - unfold get_db_prep_value. cbn [negb]. unfold get_prep_value.
    unfold bind at 1. unfold lift. rewrite Hsuper. cbv beta iota.
    rewrite Htruthy. fold plain. unfold bind. rewrite Hrun. reflexivity.
  - unfold from_db_value, to_python. rewrite Hback. reflexivity.
Qed.

(** X10. Where [decrypt_value] raises because no key authenticates the
    ciphertext, [to_python] does not: it hands the stored string itself
    to the parent. *)
Theorem to_python_swallows (cfg : settings) (s : text)
    (encrypted : bytes) (ks : list bytes) :
  envelope_of s = Ok encrypted -> keys cfg = Ok ks ->
  (forall key, In key ks ->
     gcm_open key (firstn 12 encrypted) (skipn 12 encrypted) = None) ->
  decrypt_value cfg s =
    Raise (ValueError "Decryption failed with all provided keys.") /\
  to_python false cfg (PStr s) = super_to_python (PStr s).
Proof.
  intros Henv Hk Hrej.
  pose proof (decrypt_value_exhausted cfg s encrypted ks Henv Hk Hrej) as E.
  split; [exact E |]. unfold to_python. rewrite E. reflexivity.
Qed.

End FieldReadWrite.

Section Walks.

Context {crypto : Crypto} {builtins : Builtins}.

Lemma _decrypt_values_shape (cfg : settings) (value : pyvalue) :
  shape_of (_decrypt_values cfg value) = shape_of value.
Proof.
  induction value as [| b | n | s | o t | l IH | items IH] using pyvalue_ind;
    try reflexivity;
    try (cbn [_decrypt_values]; destruct (decrypt_value cfg _); reflexivity).
  - cbn [_decrypt_values shape_of]. f_equal.
    induction IH as [| data rest Hd _ IHrest]; cbn [map]; [reflexivity |].
    rewrite Hd, IHrest. reflexivity.
  - cbn [_decrypt_values shape_of]. f_equal.
    induction IH as [| [key data] rest Hd _ IHrest]; cbn [map fst snd];
      [reflexivity |].
    cbn [snd] in Hd. rewrite Hd, IHrest. reflexivity.
Qed.

(** X13. The decrypt walk keeps the shape of every document, encrypted
    or not: the same nesting, the same keys in the same order, the same
    element counts. *)
Theorem decrypt_walk_shape (cfg : settings) (value : pyvalue) :
  shape_of (_decrypt_values cfg value) = shape_of value.
Proof. apply _decrypt_values_shape. Qed.

(** A call of [encrypt_value] that returns has drawn twelve bytes and
    encoded its plaintext. *)
Lemma encrypt_value_drawn (cfg : settings) (p token : text) (e e' : entropy) :
  encrypt_value cfg p e = (Ok token, e') ->
  forallb urlsafe_char token = true /\ Utf8.well_formed p /\
  forall i, e' i = e (12 + i)%nat.
Proof.
  unfold encrypt_value, bind, lift, os_urandom, urandom.
  destruct (keys cfg) as [ks |]; [| discriminate].
  destruct (getitem ks 0) as [key |]; [| discriminate].
  destruct (AESGCM key) as [aesgcm |]; [| discriminate].
  destruct (Utf8.encode p) as [data |] eqn:Ed; [| discriminate].
  destruct (AESGCM_encrypt aesgcm _ data) as [ciphertext |]; [| discriminate].
  rewrite token_text_decode. intros [= <- <-].
  split; [apply token_text_chars |].
  split; [exact (utf8_encode_well_formed p data Ed) | reflexivity].
Qed.

Lemma encrypt_leaf_result (cfg : settings) (value doc' : pyvalue)
    (e e' : entropy) :
  is_leaf value = true ->
  _encrypt_values cfg value e = (Ok doc', e') ->
  walk_result value doc' e e'.
Proof.
  intros Hleaf. rewrite (_encrypt_values_leaf cfg value Hleaf). unfold bind.
  destruct (encrypt_value cfg (py_str value) e) as [[token | x] e1] eqn:E;
    [| discriminate].
  unfold ret. intros [= <- <-].
  destruct (encrypt_value_drawn cfg _ _ _ _ E) as (Hchars & Hwf & Hdrawn).
  unfold walk_result. repeat split.
  - destruct value; (discriminate || reflexivity).
  - exact Hchars.
  - destruct value as [| [|] | n | s | o t | l | items];
      cbn [encodable]; trivial; try discriminate; exact Hwf.
  - intros i. rewrite Hdrawn.
    destruct value; try discriminate; reflexivity.
Qed.

Lemma encrypt_walk_result (cfg : settings) (doc : pyvalue) :
  forall doc' e e',
  _encrypt_values cfg doc e = (Ok doc', e') -> walk_result doc doc' e e'.
Proof.
  induction doc as [| b | n | s | o t | l IH | items IH] using pyvalue_ind;
    intros doc' e e';
    try (apply encrypt_leaf_result; reflexivity).
  - rewrite _encrypt_values_list. unfold bind at 1.
    destruct (encrypt_list cfg l e) as [[l' | x] e1] eqn:Ewalk; [| discriminate].
    unfold ret. intros [= <- <-].
    enough (Hl : map shape_of l' = map shape_of l /\
                 token_leaves (PList l') /\ encodable (PList l) /\
                 forall i, e1 i = e (12 * leaf_count (PList l) + i)%nat).
    { destruct Hl as (Hs & Ht & He & Hd). unfold walk_result.
      cbn [shape_of]. rewrite Hs. auto. }
    revert l' e e1 Ewalk.
    induction IH as [| data rest Hd _ IHrest]; intros l' e e1;
      cbn [encrypt_list].
    + unfold ret. intros [= <- <-]. cbn. auto.
    + unfold bind at 1.
      destruct (_encrypt_values cfg data e) as [[data' | x] e2] eqn:E1;
        [| discriminate].
      unfold bind at 1.
      destruct (encrypt_list cfg rest e2) as [[rest' | x] e3] eqn:E2;
        [| discriminate].
      unfold ret. intros [= <- <-].
      destruct (Hd _ _ _ E1) as (Hs1 & Ht1 & He1 & Hd1).
      destruct (IHrest _ _ _ E2) as (Hs2 & Ht2 & He2 & Hd2).
      cbn [map]. rewrite Hs1, Hs2. repeat split; try assumption.
      intros i. rewrite Hd2, Hd1. f_equal.
      cbn [leaf_count fold_right]. cbn [leaf_count] in *. lia.
  - rewrite _encrypt_values_dict. unfold bind at 1.
    destruct (encrypt_items cfg items e) as [[items' | x] e1] eqn:Ewalk;
      [| discriminate].
    unfold ret. intros [= <- <-].
    enough (Hl : map (fun item => (fst item, shape_of (snd item))) items' =
                 map (fun item => (fst item, shape_of (snd item))) items /\
                 token_leaves (PDict items') /\ encodable (PDict items) /\
                 forall i, e1 i = e (12 * leaf_count (PDict items) + i)%nat).
    { destruct Hl as (Hs & Ht & He & Hd). unfold walk_result.
      cbn [shape_of]. rewrite Hs. auto. }
    revert items' e e1 Ewalk.
    induction IH as [| [key data] rest Hd _ IHrest]; intros items' e e1;
      cbn [encrypt_items].
    + unfold ret. intros [= <- <-]. cbn. auto.
    + unfold bind at 1. cbn [snd] in Hd.
      destruct (_encrypt_values cfg data e) as [[data' | x] e2] eqn:E1;
        [| discriminate].
      unfold bind at 1.
      destruct (encrypt_items cfg rest e2) as [[rest' | x] e3] eqn:E2;
        [| discriminate].
      unfold ret. intros [= <- <-].
      destruct (Hd _ _ _ E1) as (Hs1 & Ht1 & He1 & Hd1).
      destruct (IHrest _ _ _ E2) as (Hs2 & Ht2 & He2 & Hd2).
      cbn [map fst snd]. rewrite Hs1, Hs2. repeat split; try assumption.
      intros i. rewrite Hd2, Hd1. f_equal.
      cbn [leaf_count fold_right snd]. cbn [leaf_count] in *. lia.
Qed.

(** X14. When the encrypt walk returns, the result has the shape of the
    document, every leaf of it is a token, every string leaf of the
    document was well-formed text, and the walk has drawn twelve bytes of
    entropy for each leaf, no more. *)
Theorem encrypt_walk_outcome (cfg : settings) (doc doc' : pyvalue)
    (e e' : entropy) :
  _encrypt_values cfg doc e = (Ok doc', e') ->
  shape_of doc' = shape_of doc /\ token_leaves doc' /\ encodable doc /\
  forall i, e' i = e (12 * leaf_count doc + i)%nat.
Proof. apply encrypt_walk_result. Qed.

End Walks.

Section LegacyLeaves.

Context {crypto : Crypto} {builtins : Builtins}.

Lemma _decrypt_values_leaf (cfg : settings) (value : pyvalue) :
  is_leaf value = true -> value <> PNone ->
  _decrypt_values cfg value =
  match decrypt_value cfg (py_str value) with
  | Ok s => PStr s
  | Raise _ => value
  end.
Proof.
  destruct value; intros Hleaf Hnone;
    (discriminate || contradiction || reflexivity).
Qed.

Context {laws : CryptoLaws crypto}.

(** X15. What the decrypt walk does to a leaf that is not a token. A
    leaf whose text does not decode as base64 comes back as that text, a
    string even where the leaf was a number; a leaf whose text decodes
    but that no key authenticates comes back as it was. *)
Theorem decrypt_walk_leaf (cfg : settings) (value : pyvalue) :
  is_leaf value = true -> value <> PNone ->
  (forall x, envelope_of (py_str value) = Raise x ->
     _decrypt_values cfg value = PStr (py_str value)) /\
  (forall encrypted ks,
     envelope_of (py_str value) = Ok encrypted -> keys cfg = Ok ks ->
     (forall key, In key ks ->
        gcm_open key (firstn 12 encrypted) (skipn 12 encrypted) = None) ->
     _decrypt_values cfg value = value).
Proof.
  intros Hleaf Hnone. rewrite (_decrypt_values_leaf cfg value Hleaf Hnone).
  split.
  - intros x Henv. rewrite (decrypt_value_passthrough cfg _ x Henv).
    reflexivity.
  - intros encrypted ks Henv Hk Hrej.
    rewrite (decrypt_value_exhausted cfg _ encrypted ks Henv Hk Hrej).
    reflexivity.
Qed.

End LegacyLeaves.

(** ** [EncryptedIntegerField.validators] *)

Import EncryptedIntegerField.

Lemma validators_unfold (dv uv : list validator) (lo hi : option Z) :
  validators dv uv (lo, hi) =
  let v0 := dv ++ uv in
  let v1 := match lo with
            | Some m => if negb (existsb (covers_min m) v0)
                        then v0 ++ [MinValueValidator (LimitValue m)] else v0
            | None => v0
            end in
  match hi with
  | Some m => if negb (existsb (covers_max m) v1)
              then v1 ++ [MaxValueValidator (LimitValue m)] else v1
  | None => v1
  end.
Proof. reflexivity. Qed.

Lemma validators_spec (dv uv : list validator) (lo hi : option Z) :
  let result := validators dv uv (lo, hi) in
  (exists added, result = dv ++ uv ++ added /\ (length added <= 2)%nat /\
     forall v, In v added ->
       (exists m, lo = Some m /\ v = MinValueValidator (LimitValue m)) \/
       (exists m, hi = Some m /\ v = MaxValueValidator (LimitValue m))) /\
  (forall m, lo = Some m -> existsb (covers_min m) result = true) /\
  (forall m, hi = Some m -> existsb (covers_max m) result = true).
Proof.
  intros result. subst result. rewrite validators_unfold. cbv zeta.
  set (v0 := dv ++ uv).
  assert (H1 : exists a1,
            match lo with
            | Some m => if negb (existsb (covers_min m) v0)
                        then v0 ++ [MinValueValidator (LimitValue m)] else v0
            | None => v0
            end = v0 ++ a1 /\ (length a1 <= 1)%nat /\
            (forall v, In v a1 ->
               exists m, lo = Some m /\ v = MinValueValidator (LimitValue m)) /\
            (forall m, lo = Some m -> existsb (covers_min m) (v0 ++ a1) = true)).
  { destruct lo as [m |].
    - destruct (existsb (covers_min m) v0) eqn:E; cbn [negb].
      + exists []. rewrite app_nil_r.
        split; [reflexivity | split; [cbn; lia | split]].
        * intros v [].
        * intros m' [= <-]. exact E.
      + exists [MinValueValidator (LimitValue m)].
        split; [reflexivity | split; [cbn; lia | split]].
        * intros v [<- | []]. eauto.
        * intros m' [= <-]. rewrite existsb_app. cbn [existsb covers_min limit_of].
          rewrite Z.leb_refl. apply orb_true_r.
    - exists []. rewrite app_nil_r.
      split; [reflexivity | split; [cbn; lia | split]].
      + intros v [].
      + intros m; discriminate. }
  destruct H1 as (a1 & -> & Hlen1 & Hin1 & Hmin).
  set (v1 := v0 ++ a1) in *.
  assert (H2 : exists a2,
            match hi with
            | Some m => if negb (existsb (covers_max m) v1)
                        then v1 ++ [MaxValueValidator (LimitValue m)] else v1
            | None => v1
            end = v1 ++ a2 /\ (length a2 <= 1)%nat /\
            (forall v, In v a2 ->
               exists m, hi = Some m /\ v = MaxValueValidator (LimitValue m)) /\
            (forall m, hi = Some m -> existsb (covers_max m) (v1 ++ a2) = true)).
  { destruct hi as [m |].
    - destruct (existsb (covers_max m) v1) eqn:E; cbn [negb].
      + exists []. rewrite app_nil_r.
        split; [reflexivity | split; [cbn; lia | split]].
        * intros v [].
        * intros m' [= <-]. exact E.
      + exists [MaxValueValidator (LimitValue m)].
        split; [reflexivity | split; [cbn; lia | split]].
        * intros v [<- | []]. eauto.
        * intros m' [= <-]. rewrite existsb_app. cbn [existsb covers_max limit_of].
          rewrite Z.leb_refl. apply orb_true_r.
    - exists []. rewrite app_nil_r.
      split; [reflexivity | split; [cbn; lia | split]].
      + intros v [].
      + intros m; discriminate. }
  destruct H2 as (a2 & -> & Hlen2 & Hin2 & Hmax).
  split; [| split].
  - exists (a1 ++ a2). subst v1 v0. rewrite <- !app_assoc. split; [reflexivity |].
    split; [rewrite length_app; lia |].
    intros v Hv. apply in_app_or in Hv. destruct Hv; [left | right]; auto.
  - intros m Hm. rewrite existsb_app, (Hmin m Hm). reflexivity.
  - exact Hmax.
Qed.

(** X18. [validators] keeps the given validators, in order, and appends
    at most the two validators of the database range; the result always
    holds a minimum validator at or above the lower bound and a maximum
    validator at or below the upper bound, when the bound is set. *)
Theorem validators_range (dv uv : list validator) (lo hi : option Z) :
  let result := validators dv uv (lo, hi) in
  (exists added, result = dv ++ uv ++ added /\ (length added <= 2)%nat /\
     forall v, In v added ->
       (exists m, lo = Some m /\ v = MinValueValidator (LimitValue m)) \/
       (exists m, hi = Some m /\ v = MaxValueValidator (LimitValue m))) /\
  (forall m, lo = Some m -> existsb (covers_min m) result = true) /\
  (forall m, hi = Some m -> existsb (covers_max m) result = true).
Proof. apply validators_spec. Qed.

(** X19. Running [validators] over its own result adds nothing. *)
Theorem validators_idempotent (dv uv : list validator) (lo hi : option Z) :
  validators (validators dv uv (lo, hi)) [] (lo, hi) =
  validators dv uv (lo, hi).
Proof.
  destruct (validators_spec dv uv lo hi) as (_ & Hmin & Hmax).
  cbv zeta in Hmin, Hmax.
  set (r := validators dv uv (lo, hi)) in *.
  rewrite (validators_unfold r []). cbv zeta. rewrite app_nil_r.
  assert (E1 : match lo with
               | Some m => if negb (existsb (covers_min m) r)
                           then r ++ [MinValueValidator (LimitValue m)] else r
               | None => r
               end = r).
  { destruct lo as [m |]; [| reflexivity]. rewrite (Hmin m eq_refl).
    reflexivity. }
  rewrite E1. destruct hi as [m |]; [| reflexivity].
  rewrite (Hmax m eq_refl). reflexivity.
Qed.

Section JsonField.

Context {crypto : Crypto} {builtins : Builtins} {parent : ParentField}
        {json : Json}.

(** X17. The JSON field's [to_python] raises neither for text that is
    not JSON nor for leaves that do not decrypt: text that does not load
    goes to the parent as it is, and text that loads goes to the parent
    as a document of the shape that was loaded, [null] as [None]. *)
Theorem json_to_python_outcome (cfg : settings) (s : text) :
  (forall x, json_loads s = Raise x ->
     EncryptedJSONField.to_python false cfg (PStr s) =
     super_to_python (PStr s)) /\
  (forall loaded, json_loads s = Ok loaded ->
     exists value,
       EncryptedJSONField.to_python false cfg (PStr s) =
       super_to_python value /\
       shape_of value = shape_of loaded /\
       (loaded = PNone -> value = PNone)).
Proof.
  unfold EncryptedJSONField.to_python. split.
  - intros x ->. reflexivity.
  - intros loaded ->. exists (_decrypt_values cfg loaded).
    split; [reflexivity |]. split; [apply _decrypt_values_shape |].
    intros ->. reflexivity.
Qed.

Context {laws : CryptoLaws crypto} {json_laws : JsonLaws json}.

(** X16. A document written with the JSON field's [get_prep_value] and
    read back with its [to_python] reaches the parent's [to_python] as
    the document with every leaf replaced by its text. *)
Theorem json_field_round_trip (cfg : settings) (doc : pyvalue) (e : entropy) :
  well_configured cfg -> encodable doc -> plain_keys (shape_of doc) ->
  exists stored e',
    EncryptedJSONField.get_prep_value cfg doc e = (Ok (PStr stored), e') /\
    EncryptedJSONField.to_python false cfg (PStr stored) =
    super_to_python (stringify doc).
Proof.
  intros Hcfg Henc Hkeys.
  destruct (walk_round_trip cfg doc Hcfg Henc e)
    as (doc' & e' & Hrun & Hshape & Hback).
  destruct (encrypt_walk_result cfg doc doc' e e' Hrun)
    as (_ & Htokens & _ & _).
  rewrite <- Hshape in Hkeys.
  destruct (json_loads_dumps doc' Htokens Hkeys) as (stored & Hdump & Hload).
  exists stored, e'. split.
  - unfold EncryptedJSONField.get_prep_value, bind, lift, ret.
    rewrite Hrun, Hdump. reflexivity.
  - unfold EncryptedJSONField.to_python. rewrite Hload, Hback. reflexivity.
Qed.

End JsonField.

(** ** The instances of [Ref] *)

Lemma z2b_congr (a b : Z) : a mod 256 = b mod 256 -> z2b a = z2b b.
Proof. unfold z2b. intros ->. reflexivity. Qed.

Lemma ref_unmask_mask (key : bytes) (b : byte) :
  Ref.unmask key (Ref.mask key b) = b.
Proof.
  unfold Ref.unmask, Ref.mask. rewrite b2z_z2b_mod.
  rewrite <- (z2b_b2z b) at 2. apply z2b_congr.
  rewrite Zminus_mod_idemp_l. f_equal. lia.
Qed.

Lemma ref_bytes_eqb_refl (a : bytes) : Ref.bytes_eqb a a = true.
Proof.
  induction a as [| x a IH]; cbn [Ref.bytes_eqb]; [reflexivity |].
  rewrite IH, (Byte.byte_dec_lb eq_refl). reflexivity.
Qed.

Lemma ref_tag_length (key nonce data : bytes) :
  length (Ref.tag key nonce data) = 16%nat.
Proof. unfold Ref.tag. rewrite length_map, length_seq. reflexivity. Qed.

(** The instance honours the contract. *)
Lemma ref_crypto_laws : CryptoLaws Ref.crypto.
Proof.
  constructor; cbn [pbkdf2_hmac_sha256 gcm_open gcm_seal Ref.crypto].
  - intros password salt iterations n. unfold Ref.kdf.
    rewrite length_map, length_seq. reflexivity.
  - intros key nonce data _ _. unfold Ref.open, Ref.seal.
    rewrite length_app, length_map, ref_tag_length.
    destruct (Nat.ltb_spec (length data + 16) 16); [lia |].
    replace (length data + 16 - 16)%nat with (length (map (Ref.mask key) data))
      by (rewrite length_map; lia).
    rewrite firstn_app, skipn_app, Nat.sub_diag, firstn_all, skipn_all.
    cbn [firstn skipn app]. rewrite app_nil_r, map_map.
    rewrite (map_ext _ (fun b => b) (ref_unmask_mask key)), map_id.
    rewrite ref_bytes_eqb_refl. reflexivity.
  - intros key nonce data Hlen. unfold Ref.open.
    destruct (Nat.ltb_spec (length data) 16); [reflexivity | lia].
Qed.

Import Ref.

Ltac literals_well_formed :=
  repeat (apply Forall_cons; [apply str_of_well_formed |]); apply Forall_nil.

Lemma cfg1_well_configured : well_configured cfg1.
Proof.
  split; [literals_well_formed | split; [literals_well_formed | discriminate]].
Qed.

(** The round trip of the empty text under [cfg1]. *)
Lemma encrypt_decrypt_round_trip_witness :
  well_configured cfg1 /\ Utf8.well_formed [] /\
  exists token e',
    encrypt_value cfg1 [] tape1 = (Ok token, e') /\
    decrypt_value cfg1 token = Ok [].
Proof.
  assert (Hp : Utf8.well_formed []) by constructor.
  split; [exact cfg1_well_configured | split; [exact Hp |]].
  exact (encrypt_decrypt_round_trip (laws := ref_crypto_laws) cfg1 [] tape1
           cfg1_well_configured Hp).
Defined.

(** A token made under [cfg1] read under [cfg2], where the secret of
    [cfg1] is the fallback. *)
Lemma key_rotation_witness :
  exists token e',
    encrypt_value cfg1 (str_of "hello") tape1 = (Ok token, e') /\
    decrypt_value cfg2 token = Ok (str_of "hello").
Proof.
  eexists. eexists. split; [reflexivity |].
  eapply (key_rotation (laws := ref_crypto_laws) cfg1 cfg2 (str_of "hello") _ tape1).
  - reflexivity.
  - reflexivity.
  - reflexivity.
  - right. left. reflexivity.
  - intros key' [<- | [<- | []]] Hne.
    + vm_compute. reflexivity.
    + contradiction Hne. reflexivity.
Defined.

(** An undecodable input comes back; an input that decodes to three
    bytes raises. *)
Lemma decrypt_value_undecodable_witness :
  decrypt_value cfg1 (str_of "not base64 at all!!") =
    Ok (str_of "not base64 at all!!") /\
  decrypt_value cfg1 (str_of "abcd") =
    Raise (ValueError "Decryption failed with all provided keys.").
Proof.
  split.
  - eapply (proj1 (decrypt_value_undecodable (laws := ref_crypto_laws) cfg1 _)).
    vm_compute. reflexivity.
  - eapply (proj2 (decrypt_value_undecodable (laws := ref_crypto_laws) cfg1 _)).
    + vm_compute. reflexivity.
    + cbn [length]. lia.
    + reflexivity.
Defined.

(** "abcd" is valid base64 of three bytes, and is not passed through. *)
Lemma decrypt_value_short_counterexample :
  envelope_of (str_of "abcd") = Ok [x69; xb7; x1d] /\
  (length [x69; xb7; x1d] < 12)%nat /\
  decrypt_value cfg1 (str_of "abcd") <> Ok (str_of "abcd").
Proof.
  split; [vm_compute; reflexivity | split; [cbn; lia |]].
  vm_compute. discriminate.
Qed.

(** A token made under the primary secret of [cfg2] read under [cfg1],
    which does not have that secret. *)
Lemma decrypt_value_all_keys_fail_witness :
  decrypt_value cfg1 token2 =
  Raise (ValueError "Decryption failed with all provided keys.").
Proof.
  eapply (decrypt_value_all_keys_fail (laws := ref_crypto_laws) cfg1 token2).
  - vm_compute. reflexivity.
  - cbn [length]. lia.
  - reflexivity.
  - intros key [<- | []]. vm_compute. reflexivity.
Defined.

(** Twelve decoded bytes leave an empty ciphertext, which no key
    authenticates. The exception raised carries the message of the source,
    which is not the message the specification quotes. *)
Lemma decrypt_value_message_counterexample :
  exists encrypted ks x,
    envelope_of bare_nonce = Ok encrypted /\ (12 <= length encrypted)%nat /\
    keys cfg1 = Ok ks /\
    Forall (fun key =>
              gcm_open key (firstn 12 encrypted) (skipn 12 encrypted) = None)
           ks /\
    decrypt_value cfg1 bare_nonce = Raise x /\
    exn_message x <> "decryption failed with all provided keys"%string.
Proof.
  eexists. eexists. eexists. split; [vm_compute; reflexivity |].
  split; [cbn [length]; lia |].
  split; [reflexivity |].
  split; [apply Forall_cons; [vm_compute; reflexivity | apply Forall_nil] |].
  split; [vm_compute; reflexivity |].
  cbn [exn_message]. discriminate.
Qed.

(** Two secrets and three salts. *)
Lemma key_material_layout_witness :
  exists ks,
    keys cfg23 = Ok ks /\ length ks = 6%nat /\
    Forall (fun key => length key = 32%nat) ks /\
    nth_error ks 0 = Some (key_of (str_of "s1") (str_of "a")) /\
    nth_error ks 2 = Some (key_of (str_of "s1") (str_of "c")) /\
    nth_error ks 3 = Some (key_of (str_of "s0") (str_of "a")) /\
    nth_error ks 4 = Some (key_of (str_of "s0") (str_of "b")).
Proof.
  assert (Hsec : Forall Utf8.well_formed (secret_keys cfg23))
    by literals_well_formed.
  assert (Hsalt : Forall Utf8.well_formed (salt_keys cfg23))
    by literals_well_formed.
  destruct (key_material_layout (laws := ref_crypto_laws) cfg23 Hsec Hsalt)
    as (ks & Hk & _ & Hlen & Hsize & Hnth & _).
  exists ks. split; [exact Hk |]. split; [exact Hlen |]. split; [exact Hsize |].
  repeat split.
  - exact (Hnth 0%nat 0%nat _ _ eq_refl eq_refl).
  - exact (Hnth 0%nat 2%nat _ _ eq_refl eq_refl).
  - exact (Hnth 1%nat 0%nat _ _ eq_refl eq_refl).
  - exact (Hnth 1%nat 1%nat _ _ eq_refl eq_refl).
Defined.

(** The walks over [doc1]. *)
Lemma structural_fidelity_witness :
  well_configured cfg1 /\ encodable doc1 /\
  exists doc' e',
    _encrypt_values cfg1 doc1 tape1 = (Ok doc', e') /\
    shape_of doc' = shape_of doc1 /\
    _decrypt_values cfg1 doc' = stringify doc1 /\
    shape_of (stringify doc1) = shape_of doc1.
Proof.
  assert (Hdoc : encodable doc1).
  { cbn [encodable doc1]. repeat split; apply str_of_well_formed. }
  split; [exact cfg1_well_configured | split; [exact Hdoc |]].
  exact (structural_fidelity (laws := ref_crypto_laws) cfg1 doc1 tape1
           cfg1_well_configured Hdoc).
Defined.

(** A null leaf comes back as the text "None". *)
Example null_leaf_round_trip :
  exists doc' e',
    _encrypt_values cfg1 (PDict [(str_of "a", PNone)]) tape1 = (Ok doc', e') /\
    _decrypt_values cfg1 doc' = PDict [(str_of "a", PStr (str_of "None"))].
Proof. eexists. eexists. split; [reflexivity | vm_compute; reflexivity]. Qed.

(** An empty salt list. *)
Lemma empty_salt_set_witness :
  salt_keys cfg_no_salt = [] /\
  keys cfg_no_salt = Ok [] /\
  encrypt_value cfg_no_salt (str_of "hello") tape1 =
    (Raise (IndexError "list index out of range"), tape1).
Proof.
  split; [reflexivity |].
  destruct (empty_salt_set cfg_no_salt eq_refl) as (_ & Hk & Henc).
  split; [exact Hk | exact (Henc (str_of "hello") tape1)].
Defined.

(** With an empty salt list key derivation returns, with no key. *)
Lemma empty_salt_set_counterexample :
  salt_keys cfg_no_salt = [] /\
  exists ks, keys cfg_no_salt = Ok ks.
Proof. split; [reflexivity | exists []; reflexivity]. Qed.

(** Two tapes, two nonces, two tokens. *)
Lemma distinct_nonces_distinct_tokens_witness :
  next_nonce tape1 <> next_nonce tape2 /\
  exists t1 t2 e1' e2',
    encrypt_value cfg1 (str_of "hello") tape1 = (Ok t1, e1') /\
    encrypt_value cfg1 (str_of "hello") tape2 = (Ok t2, e2') /\
    t1 <> t2.
Proof.
  assert (Hne : next_nonce tape1 <> next_nonce tape2)
    by (vm_compute; discriminate).
  split; [exact Hne |].
  eexists. eexists. eexists. eexists.
  split; [reflexivity | split; [reflexivity |]].
  eapply (distinct_nonces_distinct_tokens cfg1 (str_of "hello") _ _ tape1 tape2);
    [exact Hne | reflexivity | reflexivity].
Defined.

(** The falsy values, with the plain [Field] as parent class. *)
Lemma get_prep_value_falsy_witness :
  Forall (fun value => get_prep_value cfg1 value tape1 = (Ok PNone, tape1))
    [PNone; PStr []; PInt 0; PBool false; PObj (str_of "0.0") false;
     PList []; PDict []].
Proof.
  repeat (apply Forall_cons;
    [ match goal with
      | |- get_prep_value _ ?v _ = _ =>
          exact (proj1 (get_prep_value_falsy cfg1 v v tape1 eq_refl) eq_refl)
      end | ]).
  apply Forall_nil.
Defined.

(** A truthy value is stored as the token of its text. *)
Example get_prep_value_truthy :
  match fst (get_prep_value cfg1 (PInt 7) tape1) with
  | Ok (PStr token) => decrypt_value cfg1 token = Ok (str_of "7")
  | _ => False
  end.
Proof. vm_compute. reflexivity. Qed.

Import RefJson RefField.

(** ** The reader of [RefJson] reads what its writer wrote *)

Lemma ref_parse_string_dump (s rest : text) :
  RefJson.parse_string (flat_map RefJson.escape_char s ++ 34 :: rest) =
  Some (s, rest).
Proof.
  induction s as [| c s IH]; [reflexivity |].
  cbn [flat_map]. unfold RefJson.escape_char at 1.
  destruct (Z.eqb_spec c 34) as [-> | H34]; cbn [orb].
  - cbn [app RefJson.parse_string Z.eqb Pos.eqb]. rewrite IH. reflexivity.
  - destruct (Z.eqb_spec c 92) as [-> | H92].
    + cbn [app RefJson.parse_string Z.eqb Pos.eqb]. rewrite IH. reflexivity.
    + cbn [app RefJson.parse_string].
      destruct (Z.eqb_spec c 34); [contradiction |].
      destruct (Z.eqb_spec c 92); [contradiction |].
      rewrite IH. reflexivity.
Qed.

Lemma ref_parse_dump_string (s rest : text) (fuel : nat) :
  RefJson.parse (S fuel) (RefJson.dump_string s ++ rest) = Some (PStr s, rest).
Proof.
  unfold RefJson.dump_string. cbn [app RefJson.parse].
  rewrite <- app_assoc. cbn [app]. rewrite ref_parse_string_dump. reflexivity.
Qed.

Lemma ref_reads_elems (l : list pyvalue) :
  Forall ref_reads l -> token_leaves (PList l) ->
  (ref_size_elems l < length (RefJson.dump_elems l))%nat /\
  forall fuel rest, (ref_size_elems l < fuel)%nat ->
    RefJson.parse_elems fuel (RefJson.dump_elems l ++ rest) = Some (l, rest).
Proof.
  induction 1 as [| x l Hx _ IH]; intros Htok.
  - split; [cbn; lia |]. intros [| fuel] rest Hf; [lia |].
    cbn [RefJson.dump_elems app RefJson.parse_elems].
    destruct fuel; reflexivity.
  - destruct Htok as [Htx Htl].
    destruct (Hx Htx) as [Hlx Hpx]. destruct (IH Htl) as [Hll Hpl].
    split.
    + cbn [RefJson.dump_elems ref_size_elems fold_right].
      fold (ref_size_elems l). rewrite length_app.
      destruct l; cbn [length RefJson.dump_elems] in *; lia.
    + intros [| fuel] rest Hf; [lia |].
      cbn [ref_size_elems fold_right] in Hf. fold (ref_size_elems l) in Hf.
      cbn [RefJson.dump_elems RefJson.parse_elems].
      rewrite <- app_assoc, (Hpx fuel _ ltac:(lia)).
      destruct l as [| y l]; [reflexivity |].
      cbn [app]. rewrite (Hpl fuel rest ltac:(lia)). reflexivity.
Qed.

Lemma ref_reads_members (items : list (text * pyvalue)) :
  Forall (fun item => ref_reads (snd item)) items ->
  token_leaves (PDict items) ->
  (ref_size_members items < length (RefJson.dump_members items))%nat /\
  forall fuel rest, (ref_size_members items < fuel)%nat ->
    RefJson.parse_members fuel (RefJson.dump_members items ++ rest) =
    Some (items, rest).
Proof.
  induction 1 as [| [key x] items Hx _ IH]; intros Htok.
  - split; [cbn; lia |]. intros [| fuel] rest Hf; [lia |]. reflexivity.
  - destruct Htok as [Htx Htl]. cbn [snd] in Hx.
    destruct (Hx Htx) as [Hlx Hpx]. destruct (IH Htl) as [Hll Hpl].
    split.
    + cbn [RefJson.dump_members ref_size_members fold_right snd].
      fold (ref_size_members items).
      rewrite length_app. cbn [length]. rewrite length_app.
      destruct items; cbn [length RefJson.dump_members] in *; lia.
    + intros [| fuel] rest Hf; [lia |].
      cbn [ref_size_members fold_right snd] in Hf.
      fold (ref_size_members items) in Hf.
      cbn [RefJson.dump_members]. unfold RefJson.dump_string.
      cbn [app RefJson.parse_members].
      rewrite <- !app_assoc. cbn [app]. rewrite ref_parse_string_dump.
      rewrite <- app_assoc, (Hpx fuel _ ltac:(lia)).
      destruct items as [| y items]; [reflexivity |].
      cbn [app]. rewrite (Hpl fuel rest ltac:(lia)). reflexivity.
Qed.

Lemma ref_reads_all (value : pyvalue) : ref_reads value.
Proof.
  induction value as [| b | n | s | o t | l IH | items IH] using pyvalue_ind;
    intros Htok; try contradiction.
  - split.
    + unfold RefJson.dump, RefJson.dump_string. cbn [RefJson.size length].
      rewrite length_app. cbn [length]. lia.
    + intros [| fuel] rest Hf; [cbn in Hf; lia |].
      apply ref_parse_dump_string.
  - destruct (ref_reads_elems l IH Htok) as [Hlen Hparse].
    change (RefJson.dump (PList l)) with (91 :: RefJson.dump_elems l).
    change (RefJson.size (PList l)) with (S (ref_size_elems l)).
    split; [cbn [length]; lia |].
    intros [| fuel] rest Hf; [lia |].
    cbn [app RefJson.parse]. rewrite (Hparse fuel rest ltac:(lia)).
    reflexivity.
  - destruct (ref_reads_members items IH Htok) as [Hlen Hparse].
    change (RefJson.dump (PDict items)) with (123 :: RefJson.dump_members items).
    change (RefJson.size (PDict items)) with (S (ref_size_members items)).
    split; [cbn [length]; lia |].
    intros [| fuel] rest Hf; [lia |].
    cbn [app RefJson.parse]. rewrite (Hparse fuel rest ltac:(lia)).
    reflexivity.
Qed.

Lemma ref_json_laws : JsonLaws RefJson.json.
Proof.
  constructor. intros value Htok _. exists (RefJson.dump value).
  split; [reflexivity |]. cbn [json_loads RefJson.json]. unfold RefJson.loads.
  destruct (ref_reads_all value Htok) as [Hlen Hparse].
  assert (Hfuel : (RefJson.size value < S (length (RefJson.dump value)))%nat)
    by lia.
  pose proof (Hparse _ [] Hfuel) as H. rewrite app_nil_r in H.
  rewrite H. reflexivity.
Qed.

(** A token of "hello" has the token alphabet and 44 characters. *)
Lemma token_shape_witness :
  exists token e',
    encrypt_value cfg1 (str_of "hello") tape1 = (Ok token, e') /\
    forallb urlsafe_char token = true /\
    (exists n, length token = (4 * n)%nat) /\ (16 <= length token)%nat.
Proof.
  eexists. eexists. split; [reflexivity |].
  eapply (token_shape cfg1 (str_of "hello") _ tape1). reflexivity.
Defined.

(** What [decrypt_value] returned for [token2] under [cfg2] was opened
    by a key of [cfg2]. *)
Lemma decrypt_value_sound_witness :
  decrypt_value cfg2 token2 = Ok (str_of "hello") /\
  ((exists x, envelope_of token2 = Raise x /\ str_of "hello" = token2) \/
   (exists encrypted ks key data,
      envelope_of token2 = Ok encrypted /\ keys cfg2 = Ok ks /\ In key ks /\
      gcm_open key (firstn 12 encrypted) (skipn 12 encrypted) = Some data /\
      Utf8.decode data = Ok (str_of "hello"))).
Proof.
  assert (H : decrypt_value cfg2 token2 = Ok (str_of "hello"))
    by (vm_compute; reflexivity).
  split; [exact H |].
  exact (decrypt_value_sound cfg2 token2 (str_of "hello") H).
Defined.

(** Under [cfg2] the key of the new secret is tried first and passed
    over; the key of the old secret opens [token1]. *)
Lemma decrypt_value_first_key_witness :
  decrypt_value cfg2 token1 = Ok (str_of "hello").
Proof.
  eapply (decrypt_value_first_key (laws := ref_crypto_laws) cfg2 token1 _ _
            [key_of (str_of "s2") (str_of "a")] []
            (key_of (str_of "s1") (str_of "a"))).
  - vm_compute. reflexivity.
  - cbn [length]. lia.
  - vm_compute. reflexivity.
  - apply Forall_cons; [left; vm_compute; reflexivity | apply Forall_nil].
  - vm_compute. reflexivity.
  - vm_compute. reflexivity.
Defined.

(** A line break inside a token does not change what it decrypts to. *)
Lemma decrypt_value_skips_witness :
  skipped_char 10 = true /\
  decrypt_value cfg1 token1_broken = decrypt_value cfg1 token1 /\
  decrypt_value cfg1 token1 = Ok (str_of "hello").
Proof.
  assert (Hc : skipped_char 10 = true) by (vm_compute; reflexivity).
  split; [exact Hc |]. split; [| vm_compute; reflexivity].
  change (decrypt_value cfg1 (firstn 10 token1 ++ 10 :: skipn 10 token1) =
          decrypt_value cfg1 (firstn 10 token1 ++ skipn 10 token1)).
  eapply (proj1 (decrypt_value_skips cfg1 (firstn 10 token1) (skipn 10 token1)
                   10 Hc)).
  vm_compute. reflexivity.
Defined.

(** The keys of [cfg2] are the key of its new secret, then the keys of
    [cfg1]. *)
Lemma keys_after_rotation_witness :
  keys cfg2 =
  Ok (key_of (str_of "s2") (str_of "a") :: [key_of (str_of "s1") (str_of "a")]).
Proof.
  exact (keys_after_rotation cfg1 cfg2 [key_of (str_of "s1") (str_of "a")]
           eq_refl eq_refl (str_of_well_formed "s2") eq_refl).
Defined.

(** [token1], made under [cfg1], is read under [cfg2]. *)
Lemma rotation_keeps_tokens_readable_witness :
  decrypt_value cfg2 token1 = Ok (str_of "hello").
Proof.
  eapply (rotation_keeps_tokens_readable (laws := ref_crypto_laws)
            cfg1 cfg2 (str_of "hello") token1 tape1).
  - reflexivity.
  - reflexivity.
  - apply str_of_well_formed.
  - reflexivity.
  - reflexivity.
  - apply Forall_cons; [left; vm_compute; reflexivity | apply Forall_nil].
Defined.

(** A lone surrogate is not encrypted; the nonce is drawn all the same. *)
Lemma encrypt_value_outcome_witness :
  encrypt_value cfg1 [0xD800] tape1 =
  (Raise UnicodeEncodeError, snd (urandom 12 tape1)).
Proof.
  destruct (encrypt_value_outcome (laws := ref_crypto_laws) cfg1 [0xD800] tape1
              cfg1_well_configured) as [[Hwf _] | [_ H]]; [| exact H].
  exfalso. apply Forall_inv in Hwf. destruct Hwf as [_ Hs]. apply Hs. lia.
Defined.

(** The integer 7 is written as a token and read back as the text "7". *)
Lemma field_round_trip_witness :
  exists token e',
    get_db_prep_value (get_prep_value cfg1) (PInt 7) false tape1 =
      (Ok (PStr token), e') /\
    from_db_value (to_python false cfg1) (PStr token) = Ok (PStr (str_of "7")).
Proof.
  exact (field_round_trip (laws := ref_crypto_laws) cfg1 (PInt 7) (PInt 7) tape1
           cfg1_well_configured eq_refl eq_refl (str_of_well_formed "7")).
Defined.

(** [token2] cannot be decrypted under [cfg1]; [to_python] returns it. *)
Lemma to_python_swallows_witness :
  decrypt_value cfg1 token2 =
    Raise (ValueError "Decryption failed with all provided keys.") /\
  to_python false cfg1 (PStr token2) = Ok (PStr token2).
Proof.
  change (Ok (PStr token2)) with (super_to_python (PStr token2)).
  eapply (to_python_swallows (laws := ref_crypto_laws) cfg1 token2).
  - vm_compute. reflexivity.
  - reflexivity.
  - intros key [<- | []]. vm_compute. reflexivity.
Defined.

(** A blank value makes the strict parent's [clean] raise; the marker
    stays, and [token1] is then returned as it is. *)
Example clean_leaves_marker_strict :
  clean (parent := strict_parent) cfg1 (PStr []) =
    (Raise (ValueError "This field cannot be blank."), true) /\
  to_python (parent := strict_parent)
    (snd (clean (parent := strict_parent) cfg1 (PStr []))) cfg1 (PStr token1) =
    Ok (PStr token1) /\
  to_python (parent := strict_parent) false cfg1 (PStr token1) =
    Ok (PStr (str_of "hello")).
Proof. split; [reflexivity | split; [reflexivity | vm_compute; reflexivity]]. Qed.

(** The walk over [doc1]: five leaves, sixty bytes of entropy. *)
Lemma encrypt_walk_outcome_witness :
  exists doc' e',
    _encrypt_values cfg1 doc1 tape1 = (Ok doc', e') /\
    shape_of doc' = shape_of doc1 /\ token_leaves doc' /\ encodable doc1 /\
    forall i, e' i = tape1 (60 + i)%nat.
Proof.
  eexists. eexists. split; [reflexivity |].
  eapply (encrypt_walk_outcome cfg1 doc1 _ tape1). reflexivity.
Defined.

(** The legacy integer 12345 comes back as a string; 1234, which is
    base64 of three bytes, comes back as the integer. *)
Lemma decrypt_walk_leaf_witness :
  _decrypt_values cfg1 (PInt 12345) = PStr (str_of "12345") /\
  _decrypt_values cfg1 (PInt 1234) = PInt 1234.
Proof.
  split.
  - eapply (proj1 (decrypt_walk_leaf (laws := ref_crypto_laws) cfg1 (PInt 12345)
                     eq_refl ltac:(discriminate))).
    vm_compute. reflexivity.
  - eapply (proj2 (decrypt_walk_leaf (laws := ref_crypto_laws) cfg1 (PInt 1234)
                     eq_refl ltac:(discriminate))).
    + vm_compute. reflexivity.
    + reflexivity.
    + intros key [<- | []]. vm_compute. reflexivity.
Defined.

Lemma doc2_plain_keys : plain_keys (shape_of doc2).
Proof.
  cbn [doc2 shape_of map fst snd plain_keys]. split.
  - apply NoDup_cons; [| apply NoDup_cons; [intros [] | apply NoDup_nil]].
    intros [H | []]. vm_compute in H. discriminate H.
  - repeat split; apply str_of_well_formed.
Qed.

(** [doc2] written and read back through the JSON field. *)
Lemma json_field_round_trip_witness :
  exists stored e',
    EncryptedJSONField.get_prep_value cfg1 doc2 tape1 =
      (Ok (PStr stored), e') /\
    EncryptedJSONField.to_python false cfg1 (PStr stored) =
      Ok (PDict [(str_of "name", PStr (str_of "Ada"));
                 (str_of "tags", PList [PStr (str_of "x"); PStr (str_of "7")])]).
Proof.
  assert (Hdoc : encodable doc2).
  { cbn [encodable doc2]. repeat split; apply str_of_well_formed. }
  exact (json_field_round_trip (laws := ref_crypto_laws)
           (json_laws := ref_json_laws) cfg1 doc2 tape1
           cfg1_well_configured Hdoc doc2_plain_keys).
Defined.

(** Text that is not JSON goes to the parent as it is; the JSON of a
    legacy document is read with its shape kept. *)
Example json_to_python_legacy :
  EncryptedJSONField.to_python false cfg1 (PStr (str_of "not json")) =
    Ok (PStr (str_of "not json")) /\
  EncryptedJSONField.to_python false cfg1 (PStr (RefJson.dump legacy)) =
    Ok legacy.
Proof. split; vm_compute; reflexivity. Qed.

Import EncryptedIntegerField.

(** A validator looser than the range does not stand in for it; one
    inside the range does. *)
Example validators_examples :
  validators [] [MinValueValidator (LimitValue (-5000000000))]
    (Some (-2147483648), Some 2147483647) =
    [MinValueValidator (LimitValue (-5000000000));
     MinValueValidator (LimitValue (-2147483648));
     MaxValueValidator (LimitValue 2147483647)] /\
  validators [] [MinValueValidator (LimitValue 0);
                 MaxValueValidator (LimitCallable (fun _ => 100))]
    (Some (-2147483648), Some 2147483647) =
    [MinValueValidator (LimitValue 0);
     MaxValueValidator (LimitCallable (fun _ => 100))].
Proof. split; reflexivity. Qed.

Import RefCases.

(** C10 as the specification words it does not hold. Under a parent
    that converts to an integer, the empty string is falsy and
    [get_prep_value] raises instead of returning [None]; the string "0"
    is truthy and is stored as [None], not as a token. *)
Lemma get_prep_value_falsy_counterexample :
  py_bool (PStr []) = false /\
  get_prep_value (H := integer_parent) cfg1 (PStr []) tape1 =
    (Raise (ValueError "Field expected a number."), tape1) /\
  py_bool (PStr (str_of "0")) = true /\
  get_prep_value (H := integer_parent) cfg1 (PStr (str_of "0")) tape1 =
    (Ok PNone, tape1).
Proof. repeat split; reflexivity. Qed.

(** Under the parent that converts to an integer, the string "007" is
    written as the token of "7", the text of what the parent prepared. *)
Example field_round_trip_prepared :
  match fst (get_db_prep_value (get_prep_value (H := integer_parent) cfg1)
               (PStr (str_of "007")) false tape1) with
  | Ok stored => from_db_value (to_python false cfg1) stored
  | Raise x => Raise x
  end = Ok (PStr (str_of "7")).
Proof. vm_compute. reflexivity. Qed.

(** A salt that is a lone surrogate makes key derivation raise. *)
Lemma keys_failure_witness :
  SECRET_KEY cfg_surrogate <> [] /\
  keys cfg_surrogate = Raise UnicodeEncodeError.
Proof.
  assert (Hkey : SECRET_KEY cfg_surrogate <> []) by discriminate.
  split; [exact Hkey |].
  apply (proj2 (keys_failure cfg_surrogate Hkey)). split.
  - discriminate.
  - intros [_ Hsalt]. apply Forall_inv in Hsalt. apply Forall_inv in Hsalt.
    destruct Hsalt as [_ Hs]. apply Hs. lia.
Defined.
